(** * pyfit/engine.py: a scalar reverse-mode autodifferentiation engine

    The development embeds the class [Scalar] of [src/pyfit/engine.py]:
    the object graph lives in an explicit heap, the methods are programs of
    a small state-and-exception monad over that heap, and the closures that
    the arithmetic methods attach to their result are first-order data.

    Modelling choices, fixed once and for all:
    - a Python object reference is an index into the heap (a list of
      [Scalar] records); object identity is index equality, and allocation
      appends at the end, so that a fresh object never aliases an old one;
    - [data] and [grad] hold exact rationals ([Qc]); rounding, overflow,
      infinities and NaN of binary floating point are outside the model.
      Python raises [ZeroDivisionError] on a division by zero, and so does
      the model;
    - [_prev] is a finite set of references, iterated in the order given by
      [elements], which is as arbitrary as the iteration order of a Python
      set; no theorem depends on it;
    - the recursion of [build_topo] is bounded by fuel; [backward_ok] shows
      that the fuel [backward] passes down is always enough on the heaps
      that satisfy the invariant [wf], and [built_wf] that every heap built
      through the class satisfies it. The interpreter's own recursion limit
      is outside the model. *)

From Stdlib Require Import QArith Qcanon.
From stdpp Require Import base numbers list strings gmap.

Local Open Scope Qc_scope.

(** ** Objects and heap *)

Abbreviation ref := nat.

(** The nested functions [_backward] of the source capture [self], [_other]
    and [out] by reference; a closure is its code tag and its environment. *)
Inductive closure : Type :=
| BwNone                                (* lambda: None *)
| BwAdd (self other out : ref)          (* _backward of __add__ *)
| BwSub (self other out : ref)          (* _backward of __sub__ *)
| BwMul (self other out : ref)          (* _backward of __mul__ *)
| BwDiv (self other out : ref)          (* _backward of __truediv__ *)
| BwRelu (self out : ref).              (* _backward of relu *)

Record Scalar : Type := mkScalar {
  data : Qc;
  grad : Qc;
  _backward : closure;
  _prev : gset ref;
  _op : string
}.

Global Instance closure_eq_dec : EqDecision closure.
Proof. solve_decision. Defined.

Global Instance Scalar_eq_dec : EqDecision Scalar.
Proof. solve_decision. Defined.

Abbreviation heap := (list Scalar).

Definition with_grad (g : Qc) (nd : Scalar) : Scalar :=
  mkScalar (data nd) g (_backward nd) (_prev nd) (_op nd).

Definition with_backward (c : closure) (nd : Scalar) : Scalar :=
  mkScalar (data nd) (grad nd) c (_prev nd) (_op nd).

(** Field reads used in statements. *)
Definition data_at (h : heap) (r : ref) : option Qc := data <$> h !! r.
Definition grad_at (h : heap) (r : ref) : option Qc := grad <$> h !! r.
Definition prev_at (h : heap) (r : ref) : option (gset ref) := _prev <$> h !! r.
Definition backward_at (h : heap) (r : ref) : option closure :=
  _backward <$> h !! r.

(** ** Python values that can reach an operator as [other] *)

Inductive pyval : Type :=
| PyScalar (r : ref)      (* an instance of Scalar *)
| PyFloat (x : Qc)        (* an instance of float *)
| PyInt (n : Z)           (* an instance of int (bool included) *)
| PyOther.                (* None, a str, ...: no [data], no arithmetic *)

(** ** The monad: a heap is threaded, an exception aborts *)

Inductive exn : Type := ZeroDivisionError | AttributeError | TypeError.

(** [Stuck] is no Python behaviour: it marks a read through a reference
    outside the heap, or exhausted fuel. [wf] heaps never reach it. *)
Inductive outcome (A : Type) : Type :=
| Ok (a : A) (h : heap)
| Raise (e : exn) (h : heap)
| Stuck.
Arguments Ok {A} a h.
Arguments Raise {A} e h.
Arguments Stuck {A}.

Definition M (A : Type) : Type := heap → outcome A.

Definition ret {A} (a : A) : M A := λ h, Ok a h.

Definition bind {A B} (m : M A) (k : A → M B) : M B := λ h,
  match m h with
  | Ok a h' => k a h'
  | Raise e h' => Raise e h'
  | Stuck => Stuck
  end.

Definition raise {A} (e : exn) : M A := λ h, Raise e h.

Notation "'let*' x ':=' m 'in' k" := (bind m (λ x, k))
  (at level 10, x pattern, m at level 100, k at level 200).

(** The heap a computation leaves behind, whether it returned or raised. *)
Definition final_heap {A} (o : outcome A) : option heap :=
  match o with
  | Ok _ h => Some h
  | Raise _ h => Some h
  | Stuck => None
  end.

(** Attribute read [r.f] and attribute update on an object. *)
Definition read {A} (f : Scalar → A) (r : ref) : M A := λ h,
  match h !! r with
  | Some nd => Ok (f nd) h
  | None => Stuck
  end.

Definition write (f : Scalar → Scalar) (r : ref) : M unit := λ h,
  match h !! r with
  | Some nd => Ok tt (<[r := f nd]> h)
  | None => Stuck
  end.

(** [x / y] on Python numbers. *)
Definition py_div (x y : Qc) : M Qc :=
  if decide (y = 0) then raise ZeroDivisionError else ret (x / y).

(** ** Scalar.__init__

    [grad] starts at 0, [_backward] as [lambda: None], and [_prev] is
    [set(children)]. The new object is returned. *)
Definition __init__ (d : Qc) (children : list ref) (op : string) : M ref :=
  λ h, Ok (length h) (h ++ [mkScalar d 0 BwNone (list_to_set children) op]).

(** [self_type(other) if isinstance(other, float) else other] *)
Definition lift (other : pyval) : M pyval :=
  match other with
  | PyFloat x => let* r := __init__ x [] "" in ret (PyScalar r)
  | _ => ret other
  end.

(** Evaluating [_other.data]: only a Scalar has the attribute. The
    reference is returned, the field is then read with [read data]. *)
Definition scalar_of (v : pyval) : M ref :=
  match v with
  | PyScalar r => ret r
  | _ => raise AttributeError
  end.

(** [r.grad += v] and [r.grad -= v] *)
Definition grad_iadd (r : ref) (v : Qc) : M unit :=
  let* g := read grad r in write (with_grad (g + v)) r.

Definition grad_isub (r : ref) (v : Qc) : M unit :=
  let* g := read grad r in write (with_grad (g - v)) r.

(** ** The arithmetic methods *)

Definition __add__ (self : ref) (other : pyval) : M ref :=
  let* _other := lift other in
  let* x := read data self in
  let* o := scalar_of _other in
  let* y := read data o in
  let* out := __init__ (x + y) [self; o] "+" in
  let* _ := write (with_backward (BwAdd self o out)) out in
  ret out.

Definition __sub__ (self : ref) (other : pyval) : M ref :=
  let* _other := lift other in
  let* x := read data self in
  let* o := scalar_of _other in
  let* y := read data o in
  let* out := __init__ (x - y) [self; o] "-" in
  let* _ := write (with_backward (BwSub self o out)) out in
  ret out.

Definition __mul__ (self : ref) (other : pyval) : M ref :=
  let* _other := lift other in
  let* x := read data self in
  let* o := scalar_of _other in
  let* y := read data o in
  let* out := __init__ (x * y) [self; o] "*" in
  let* _ := write (with_backward (BwMul self o out)) out in
  ret out.

Definition __truediv__ (self : ref) (other : pyval) : M ref :=
  let* _other := lift other in
  let* x := read data self in
  let* o := scalar_of _other in
  let* y := read data o in
  let* q := py_div x y in
  let* out := __init__ q [self; o] "/" in
  let* _ := write (with_backward (BwDiv self o out)) out in
  ret out.

(** [0 if self.data < 0 else self.data] *)
Definition relu (self : ref) : M ref :=
  let* x := read data self in
  let* out := __init__ (if decide (x < 0) then 0 else x) [self] "ReLU" in
  let* _ := write (with_backward (BwRelu self out)) out in
  ret out.

(** ** The bodies of the closures

    Each statement reads [out.grad] again, as the source does. In the rule
    of [relu], [(out.data > 0)] is a bool multiplied with a number. *)
Definition run_closure (c : closure) : M unit :=
  match c with
  | BwNone => ret tt
  | BwAdd self other out =>
      let* g := read grad out in
      let* _ := grad_iadd self g in
      let* g' := read grad out in
      grad_iadd other g'
  | BwSub self other out =>
      let* g := read grad out in
      let* _ := grad_iadd self g in
      let* g' := read grad out in
      grad_isub other g'
  | BwMul self other out =>
      let* g := read grad out in
      let* y := read data other in
      let* _ := grad_iadd self (g * y) in
      let* g' := read grad out in
      let* x := read data self in
      grad_iadd other (g' * x)
  | BwDiv self other out =>
      let* g := read grad out in
      let* y := read data other in
      let* q := py_div g y in
      let* _ := grad_iadd self q in
      let* g' := read grad out in
      let* x := read data self in
      let* y' := read data other in
      let* d := py_div (- x) (y' * y') in
      grad_iadd other (g' * d)
  | BwRelu self out =>
      let* v := read data out in
      let* g := read grad out in
      grad_iadd self ((if decide (0 < v) then 1 else 0) * g)
  end.

(** [node._backward()] *)
Definition call_backward (node : ref) : M unit :=
  let* c := read _backward node in run_closure c.

(** ** Scalar.backward *)

(** [for x in xs: body(x)] *)
Fixpoint for_each {A} (xs : list A) (body : A → M unit) : M unit :=
  match xs with
  | [] => ret tt
  | x :: xs' => let* _ := body x in for_each xs' body
  end.

(** The nested [build_topo]: it only reads the heap, and updates the two
    locals [visited] and [topo] of the enclosing call. *)
Fixpoint build_topo (h : heap) (fuel : nat) (node : ref)
    (st : gset ref * list ref) : option (gset ref * list ref) :=
  match fuel with
  | O => None
  | S fuel' =>
      let '(visited, topo) := st in
      if decide (node ∈ visited) then Some st
      else
        nd ← h !! node;
        '(visited', topo') ←
          foldl (λ acc child, acc ≫= build_topo h fuel' child)
                (Some ({[node]} ∪ visited, topo))
                (elements (_prev nd));
        Some (visited', topo' ++ [node])
  end.

(** The sequence [topo] that [backward] computes for [self]. *)
Definition topo_of (h : heap) (self : ref) : option (list ref) :=
  snd <$> build_topo h (S (length h)) self (∅, []).

Definition backward (self : ref) : M unit := λ h,
  match topo_of h self with
  | None => Stuck
  | Some topo =>
      (let* _ := write (with_grad 1) self in
       for_each (reverse topo) call_backward) h
  end.

(** ** The reflected operators *)

Definition __radd__ (self : ref) (other : pyval) : M ref := __add__ self other.

Definition __rmul__ (self : ref) (other : pyval) : M ref := __mul__ self other.

(** [_other.__sub__(self)]: on a Scalar it is [__sub__]. An int has a
    [__sub__] of its own, which returns [NotImplemented] for a Scalar
    argument; the interpreter then raises [TypeError] for [other - self].
    None and str have no such method. *)
Definition __rsub__ (self : ref) (other : pyval) : M ref :=
  let* _other := lift other in
  match _other with
  | PyScalar o => __sub__ o (PyScalar self)
  | PyInt _ | PyFloat _ => raise TypeError
  | PyOther => raise AttributeError
  end.

Definition __rtruediv__ (self : ref) (other : pyval) : M ref :=
  let* _other := lift other in
  match _other with
  | PyScalar o => __truediv__ o (PyScalar self)
  | PyInt _ | PyFloat _ => raise TypeError
  | PyOther => raise AttributeError
  end.

(** ** Running programs from the empty heap, for the examples *)

Definition run {A} (m : M A) : outcome A := m [].

Definition leaf (x : Qc) : M ref := __init__ x [] "".

(** ** Vocabulary of the statements *)

(** The heap in which [v] has been added to the gradient of [r]. *)
Definition add_grad (r : ref) (v : Qc) (h : heap) : heap :=
  alter (λ nd, with_grad (grad nd + v) nd) r h.

(** [o] is an operand of [c]; read the other way, [c] is a consumer of [o]. *)
Definition operand (h : heap) (o c : ref) : Prop :=
  ∃ nd, h !! c = Some nd ∧ o ∈ _prev nd.

(** The nodes reachable from [t] through the operand relation. *)
Inductive reachable (h : heap) (t : ref) : ref → Prop :=
| reach_refl : reachable h t t
| reach_step c o : reachable h t c → operand h o c → reachable h t o.

(** [x] occurs at a strictly smaller position than [y]. *)
Definition strictly_before (x y : ref) (l : list ref) : Prop :=
  ∃ i j, l !! i = Some x ∧ l !! j = Some y ∧ (i < j)%nat.

(** A later heap: every object of [h] is still there, with the same
    [data], [_backward], [_prev] and [_op]; gradients may differ and new
    objects may have been allocated. *)
Definition evolves (h h' : heap) : Prop :=
  ∀ i nd, h !! i = Some nd → ∃ g, h' !! i = Some (with_grad g nd).

(** The same, with no allocation. *)
Definition grads_only (h h' : heap) : Prop :=
  length h' = length h ∧ evolves h h'.

(** The leaf that [lift] allocates for the float [r]. *)
Definition lifted (r : Qc) : Scalar := mkScalar r 0 BwNone ∅ "".

(** The four binary operations, to state their contract once. *)
Inductive binop : Type := Add | Sub | Mul | Div.

Global Instance binop_eq_dec : EqDecision binop.
Proof. solve_decision. Defined.

Definition method (op : binop) : ref → pyval → M ref :=
  match op with
  | Add => __add__
  | Sub => __sub__
  | Mul => __mul__
  | Div => __truediv__
  end.

Definition rule (op : binop) : ref → ref → ref → closure :=
  match op with
  | Add => BwAdd
  | Sub => BwSub
  | Mul => BwMul
  | Div => BwDiv
  end.

(** The forward-mathematical result of [op]. *)
Definition forward_value (op : binop) (x y : Qc) : Qc :=
  match op with
  | Add => x + y
  | Sub => x - y
  | Mul => x * y
  | Div => x / y
  end.

(** The table of contributions of the specification: for the gradient [g]
    of the result and the values [x] of [self] and [y] of [other], what is
    added to the gradient of [self] and to the gradient of [other]. *)
Definition table (op : binop) (g x y : Qc) : Qc * Qc :=
  match op with
  | Add => (g, g)
  | Sub => (g, - g)
  | Mul => (g * y, g * x)
  | Div => (g / y, g * (- x / (y * y)))
  end.

(** A sequence in which every operand of a member occurs strictly
    earlier than the member, and no member occurs twice. *)
Definition topo_ok (h : heap) (T : list ref) : Prop :=
  NoDup T ∧
  ∀ i c o, T !! i = Some c → operand h o c →
    ∃ j, (j < i)%nat ∧ T !! j = Some o.

(** Below [k], the set [visited] and the list [topo] have the same
    members. Nodes whose call is still open are in [visited] only, and
    they are younger than the node being visited. *)
Definition agree (k : nat) (V : gset ref) (T : list ref) : Prop :=
  ∀ m, (m < k)%nat → m ∈ V ↔ m ∈ T.

(** What a call [build_topo(n)] that starts with [visited = V] and
    [topo = T] leaves in the two locals. *)
Definition topo_post (h : heap) (n : ref) (V : gset ref) (T : list ref)
    (V' : gset ref) (T' : list ref) : Prop :=
  ∃ new, T' = T ++ new ∧ V' = V ∪ list_to_set new
    ∧ (∀ x, x ∈ new → reachable h n x)
    ∧ topo_ok h T' ∧ n ∈ T' ∧ (n ∈ V ∨ last T' = Some n).

(** The record of a sequence of invocations, as one gets it by
    instrumenting the call [node._backward()]: starting in [h], the rule
    stored in each node of [l] is run in turn; the record pairs each node
    with the heap in which its rule is invoked, and comes with the heap
    that the last rule leaves. There is no record when a node does not
    exist or its rule does not return. *)
Fixpoint invocations (l : list ref) (h : heap) :
    option (list (ref * heap) * heap) :=
  match l with
  | [] => Some ([], h)
  | x :: l' =>
      c ← backward_at h x;
      match run_closure c h with
      | Ok _ h1 => '(tr, h') ← invocations l' h1; Some ((x, h) :: tr, h')
      | _ => None
      end
  end.

(** A graph with a diamond and a chain of depth three, for the examples:
    [a = Scalar(3.0); b = a + a; c = b * a; d = c.relu()]. *)
Definition example_graph : M ref :=
  let* a := leaf (Qc_of_Z 3) in
  let* b := __add__ a (PyScalar a) in
  let* c := __mul__ b (PyScalar a) in
  relu c.

Definition example_heap : heap := default [] (final_heap (run example_graph)).

(** What the rule of [x] adds, and to whom, when it is invoked on [h]: a
    function of the closure of [x], of the gradient of [x] and of the
    values of its operands. *)
Definition contributions (h : heap) (x : ref) : list (ref * Qc) :=
  match h !! x with
  | None => []
  | Some nd =>
      let g := grad nd in
      let val r := default 0 (data_at h r) in
      match _backward nd with
      | BwNone => []
      | BwAdd a b _ => [(a, g); (b, g)]
      | BwSub a b _ => [(a, g); (b, - g)]
      | BwMul a b _ => [(a, g * val b); (b, g * val a)]
      | BwDiv a b _ => [(a, g / val b); (b, g * (- val a / (val b * val b)))]
      | BwRelu a _ => [(a, (if decide (0 < data nd) then 1 else 0) * g)]
      end
  end.

Definition add_grads (cs : list (ref * Qc)) (h : heap) : heap :=
  foldl (λ h' p, add_grad p.1 p.2 h') h cs.

(** The part of the contributions [cs] that goes to [l]. *)
Definition delta (cs : list (ref * Qc)) (l : ref) : Qc :=
  foldr (λ p acc, (if decide (p.1 = l) then p.2 else 0) + acc) 0 cs.

(** The larger of two numbers, for the value of [relu]. *)
Definition Qc_max (x y : Qc) : Qc := if decide (x ≤ y) then y else x.

(** [x = Scalar(v); y = x.relu(); y.backward()] *)
Definition relu_example (v : Qc) : M (ref * ref) :=
  let* x := leaf v in
  let* y := relu x in
  let* _ := backward y in
  ret (x, y).

(** Every heap a computation can leave behind is related to the heap it
    started from. *)
Definition respects {A} (R : relation heap) (m : M A) : Prop :=
  ∀ h h', final_heap (m h) = Some h' → R h h'.

(** ** The calls a client can make *)

Definition reflected (op : binop) : ref → pyval → M ref :=
  match op with
  | Add => __radd__
  | Sub => __rsub__
  | Mul => __rmul__
  | Div => __rtruediv__
  end.

Inductive call : Type :=
| CallInit (x : Qc)                                  (* Scalar(x) *)
| CallMethod (op : binop) (self : ref) (other : pyval)
| CallReflected (op : binop) (self : ref) (other : pyval)
| CallRelu (self : ref)
| CallBackward (self : ref).

(** The heap after a call, whether it returned or raised. *)
Definition exec (c : call) (h : heap) : option heap :=
  match c with
  | CallInit x => final_heap (leaf x h)
  | CallMethod op self other => final_heap (method op self other h)
  | CallReflected op self other => final_heap (reflected op self other h)
  | CallRelu self => final_heap (relu self h)
  | CallBackward self => final_heap (backward self h)
  end.

(** A client holds references to existing objects only. *)
Definition pyval_valid (h : heap) (v : pyval) : Prop :=
  match v with
  | PyScalar r => (r < length h)%nat
  | _ => True
  end.

Definition call_valid (h : heap) (c : call) : Prop :=
  match c with
  | CallInit _ => True
  | CallMethod _ self other | CallReflected _ self other =>
      (self < length h)%nat ∧ pyval_valid h other
  | CallRelu self | CallBackward self => (self < length h)%nat
  end.

(** The heaps a client can build, starting with no object. *)
Inductive built : heap → Prop :=
| built_nil : built []
| built_call h c h' : built h → call_valid h c → exec c h = Some h' → built h'.

(** A chain of depth two, for the example of two passes:
    [a = Scalar(2.0); m = a * 3.0; t = m + 1.0]. The objects are, in the
    order of their allocation, [a], the leaf 3, [m], the leaf 1 and [t]. *)
Definition chain_graph : M ref :=
  let* a := leaf (Qc_of_Z 2) in
  let* m := __mul__ a (PyFloat (Qc_of_Z 3)) in
  __add__ m (PyFloat 1).

Definition chain_heap : heap := default [] (final_heap (run chain_graph)).

(** ** The invariant of heaps built by the class

    Operands are older than their consumer, so the graph is acyclic; a
    closure sits on the object it names [out] and refers to operands of
    that object; the divisor of a division node is not zero, because the
    forward division went through. *)
Definition closure_ok (h : heap) (i : ref) (nd : Scalar) : Prop :=
  match _backward nd with
  | BwNone => True
  | BwAdd a b o | BwSub a b o | BwMul a b o =>
      o = i ∧ a ∈ _prev nd ∧ b ∈ _prev nd
  | BwDiv a b o =>
      o = i ∧ a ∈ _prev nd ∧ b ∈ _prev nd ∧
      match data_at h b with Some y => y ≠ 0 | None => False end
  | BwRelu a o => o = i ∧ a ∈ _prev nd
  end.

Definition node_ok (h : heap) (i : ref) (nd : Scalar) : Prop :=
  set_Forall (λ c, (c < i)%nat) (_prev nd) ∧ closure_ok h i nd.

Definition wf (h : heap) : Prop :=
  ∀ i nd, h !! i = Some nd → node_ok h i nd.

Global Instance closure_ok_dec h i nd : Decision (closure_ok h i nd).
Proof.
  unfold closure_ok. destruct (_backward nd); try apply _.
  destruct (data_at h other); apply _.
Defined.

Global Instance node_ok_dec h i nd : Decision (node_ok h i nd).
Proof. unfold node_ok. apply _. Defined.

Lemma wf_Forall (h : heap) :
  wf h ↔ Forall (λ p, node_ok h p.1 p.2) (imap pair h).
Proof.
  rewrite Forall_lookup. split.
  - intros Hwf i [j nd] Hi. rewrite list_lookup_imap in Hi.
    destruct (h !! i) as [nd'|] eqn:E; simplify_eq/=. by apply Hwf.
  - intros HF i nd Hi. apply (HF i (i, nd)).
    rewrite list_lookup_imap. by rewrite Hi.
Qed.

Global Instance wf_dec h : Decision (wf h).
Proof.
  refine (cast_if (decide (Forall (λ p, node_ok h p.1 p.2) (imap pair h))));
    by rewrite wf_Forall.
Defined.

(** ** Vocabulary of the further properties *)

(** The partial derivatives of [op] at [(x, y)], as in a calculus text:
    with respect to the first and to the second argument. *)
Definition partials (op : binop) (x y : Qc) : Qc * Qc :=
  match op with
  | Add => (1, 1)
  | Sub => (1, - 1)
  | Mul => (y, x)
  | Div => (1 / y, - x / (y * y))
  end.

(** What [j] receives from the rules of the nodes [xs], each rule reading
    the gradient its node has in [h]. *)
Definition received (h : heap) (xs : list ref) (j : ref) : Qc :=
  foldr (λ x acc, delta (contributions h x) j + acc) 0 xs.

(** An order of invocation in which no node occurs twice and every
    consumer comes strictly before its operands. *)
Definition consumers_first (h : heap) (l : list ref) : Prop :=
  NoDup l ∧
  ∀ i k c o, l !! i = Some c → l !! k = Some o → operand h o c → (i < k)%nat.

(** [build_topo] with the iteration order of the sets [_prev] made
    explicit: [ord n] is the sequence in which [for child in node._prev]
    yields the operands of the object [n]. *)
Fixpoint build_topo_ord (ord : ref → list ref) (h : heap) (fuel : nat)
    (node : ref) (st : gset ref * list ref) : option (gset ref * list ref) :=
  match fuel with
  | O => None
  | S fuel' =>
      let '(visited, topo) := st in
      if decide (node ∈ visited) then Some st
      else
        nd ← h !! node;
        '(visited', topo') ←
          foldl (λ acc child, acc ≫= build_topo_ord ord h fuel' child)
                (Some ({[node]} ∪ visited, topo))
                (ord node);
        Some (visited', topo' ++ [node])
  end.

Definition topo_of_ord (ord : ref → list ref) (h : heap) (self : ref) :
    option (list ref) :=
  snd <$> build_topo_ord ord h (S (length h)) self (∅, []).

(** The iteration order the model fixes. *)
Definition elements_order (h : heap) (n : ref) : list ref :=
  match h !! n with
  | Some nd => elements (_prev nd)
  | None => []
  end.

(** An iteration yields the members of the set, and nothing else. *)
Definition iteration_order (h : heap) (ord : ref → list ref) : Prop :=
  ∀ n nd, h !! n = Some nd → ∀ x, x ∈ ord n ↔ x ∈ _prev nd.

(** [a = Scalar(2.0); b = Scalar(3.0); p = a * b] *)
Definition product_heap : heap :=
  default [] (final_heap (run (let* a := leaf (Qc_of_Z 2) in
                               let* b := leaf (Qc_of_Z 3) in
                               __mul__ a (PyScalar b)))).

(** ** Expressions over existing leaves

    A client writes an arithmetic expression over Scalars it has made:
    [EVar r] is an existing object, [EConst q] is [Scalar(q)], and the
    operators are the methods of the class. Python evaluates the left
    operand, then the right one, then calls the method. *)
Inductive expr : Type :=
| EVar (r : ref)
| EConst (q : Qc)
| EBin (op : binop) (e1 e2 : expr)
| ERelu (e : expr).

Fixpoint build (e : expr) : M ref :=
  match e with
  | EVar r => ret r
  | EConst q => leaf q
  | EBin op e1 e2 =>
      let* a := build e1 in
      let* b := build e2 in
      method op a (PyScalar b)
  | ERelu e1 => let* a := build e1 in relu a
  end.

(** The number an expression denotes, given the values of the objects in
    [h]; none when a divisor is 0. *)
Fixpoint value_of (h : heap) (e : expr) : option Qc :=
  match e with
  | EVar r => data_at h r
  | EConst q => Some q
  | EBin op e1 e2 =>
      x ← value_of h e1;
      y ← value_of h e2;
      if decide (op = Div ∧ y = 0) then None else Some (forward_value op x y)
  | ERelu e1 => Qc_max 0 <$> value_of h e1
  end.


(** The objects named in the expression exist in [h]. *)
Fixpoint vars_valid (h : heap) (e : expr) : Prop :=
  match e with
  | EVar r => (r < length h)%nat
  | EConst _ => True
  | EBin _ e1 e2 => vars_valid h e1 ∧ vars_valid h e2
  | ERelu e1 => vars_valid h e1
  end.


Definition op_tag (op : binop) : string :=
  match op with Add => "+" | Sub => "-" | Mul => "*" | Div => "/" end.

(** The heap [hb] and the root [a] that building [e] on [ha] gives, when
    [e] denotes [v] over the leaves of [h0]. *)
Inductive built_tree (h0 : heap) : expr → Qc → heap → ref → heap → Prop :=
| bt_var r v ha :
    data_at h0 r = Some v → built_tree h0 (EVar r) v ha r ha
| bt_const q ha :
    built_tree h0 (EConst q) q ha (length ha) (ha ++ [lifted q])
| bt_bin op e1 e2 x y ha a1 hm a2 hk :
    built_tree h0 e1 x ha a1 hm → built_tree h0 e2 y hm a2 hk →
    (op = Div → y ≠ 0) →
    built_tree h0 (EBin op e1 e2) (forward_value op x y) ha (length hk)
      (hk ++ [mkScalar (forward_value op x y) 0 (rule op a1 a2 (length hk))
                (list_to_set [a1; a2]) (op_tag op)])
| bt_relu e1 x ha a1 hm :
    built_tree h0 e1 x ha a1 hm →
    built_tree h0 (ERelu e1) (Qc_max 0 x) ha (length hm)
      (hm ++ [mkScalar (if decide (x < 0) then 0 else x) 0
                (BwRelu a1 (length hm)) (list_to_set [a1]) "ReLU"]).

(** ** Stepping through monadic code *)

Lemma bind_read {A B} (f : Scalar → A) (r : ref) (k : A → M B) h x :
  f <$> h !! r = Some x → bind (read f r) k h = k x h.
Proof.
  unfold bind, read. destruct (h !! r); intros; by simplify_eq/=.
Qed.

Lemma bind_ret {A B} (a : A) (k : A → M B) h : bind (ret a) k h = k a h.
Proof. done. Qed.

Lemma bind_Ok {A B} (m : M A) (k : A → M B) h a h' :
  m h = Ok a h' → bind m k h = k a h'.
Proof. unfold bind. by intros ->. Qed.

Lemma bind_py_div {B} (x y : Qc) (k : Qc → M B) h :
  y ≠ 0 → bind (py_div x y) k h = k (x / y) h.
Proof. intros Hy. unfold bind, py_div. by destruct (decide (y = 0)). Qed.

Lemma bind_py_div_zero {B} (x : Qc) (k : Qc → M B) h :
  bind (py_div x 0) k h = Raise ZeroDivisionError h.
Proof. unfold bind, py_div. by destruct (decide (0 = 0)). Qed.

(** ** Gradient updates *)

Lemma length_add_grad r v h : length (add_grad r v h) = length h.
Proof. apply length_alter. Qed.

Lemma lookup_add_grad_ne r v h j : j ≠ r → add_grad r v h !! j = h !! j.
Proof. intros. apply list_lookup_alter_ne. done. Qed.

Lemma lookup_add_grad_eq r v h :
  add_grad r v h !! r = (λ nd, with_grad (grad nd + v) nd) <$> h !! r.
Proof. apply list_lookup_alter_eq. Qed.

Lemma data_at_add_grad r v h j : data_at (add_grad r v h) j = data_at h j.
Proof.
  unfold data_at. destruct (decide (j = r)) as [->|].
  - rewrite lookup_add_grad_eq. by destruct (h !! r).
  - by rewrite lookup_add_grad_ne.
Qed.

Lemma grad_at_add_grad_ne r v h j :
  j ≠ r → grad_at (add_grad r v h) j = grad_at h j.
Proof. intros. unfold grad_at. by rewrite lookup_add_grad_ne. Qed.

Lemma grad_at_add_grad_eq r v h :
  grad_at (add_grad r v h) r = (λ g, g + v) <$> grad_at h r.
Proof. unfold grad_at. rewrite lookup_add_grad_eq. by destruct (h !! r). Qed.

Lemma write_grad_alter g (r : ref) (h : heap) nd :
  h !! r = Some nd → <[r := with_grad g nd]> h = alter (with_grad g) r h.
Proof.
  intros Hr. apply list_eq. intros j. destruct (decide (j = r)) as [->|].
  - rewrite list_lookup_alter_eq, Hr, list_lookup_insert_eq; [done|].
    by eapply lookup_lt_Some.
  - by rewrite list_lookup_alter_ne, list_lookup_insert_ne.
Qed.

Lemma grad_iadd_ok r v h :
  (r < length h)%nat → grad_iadd r v h = Ok tt (add_grad r v h).
Proof.
  intros Hr. destruct (lookup_lt_is_Some_2 h r Hr) as [nd Hnd].
  unfold grad_iadd. rewrite (bind_read grad r _ h (grad nd)) by by rewrite Hnd.
  unfold write. rewrite Hnd. f_equal. unfold add_grad.
  apply list_eq. intros j. destruct (decide (j = r)) as [->|].
  - by rewrite list_lookup_alter_eq, Hnd, list_lookup_insert_eq.
  - by rewrite list_lookup_alter_ne, list_lookup_insert_ne.
Qed.

Lemma grad_isub_ok r v h :
  (r < length h)%nat → grad_isub r v h = Ok tt (add_grad r (- v) h).
Proof. apply (grad_iadd_ok r (- v) h). Qed.

Lemma bind_grad_iadd {B} r v (k : unit → M B) h :
  (r < length h)%nat → bind (grad_iadd r v) k h = k tt (add_grad r v h).
Proof. intros. by erewrite bind_Ok by by apply grad_iadd_ok. Qed.

Lemma bind_grad_isub {B} r v (k : unit → M B) h :
  (r < length h)%nat → bind (grad_isub r v) k h = k tt (add_grad r (- v) h).
Proof. intros. by erewrite bind_Ok by by apply grad_isub_ok. Qed.

Lemma at_lt {A} (f : Scalar → A) (h : heap) r x :
  f <$> h !! r = Some x → (r < length h)%nat.
Proof.
  intros H. apply lookup_lt_is_Some. destruct (h !! r); naive_solver.
Qed.

Lemma bind_read_grad {B} r (k : Qc → M B) h g :
  grad_at h r = Some g → bind (read grad r) k h = k g h.
Proof. apply bind_read. Qed.

Lemma bind_read_data {B} r (k : Qc → M B) h x :
  data_at h r = Some x → bind (read data r) k h = k x h.
Proof. apply bind_read. Qed.

Ltac heap_facts :=
  repeat first
    [ rewrite length_add_grad
    | rewrite data_at_add_grad
    | rewrite grad_at_add_grad_ne by done ].

Ltac step :=
  first
    [ rewrite bind_ret
    | erewrite bind_read_grad by (heap_facts; eassumption)
    | erewrite bind_read_data by (heap_facts; eassumption)
    | rewrite bind_grad_iadd by (heap_facts; eassumption)
    | rewrite bind_grad_isub by (heap_facts; eassumption)
    | rewrite bind_py_div by assumption ].

(** ** What each closure does

    On a heap where the operands hold [x] and [y] and the result holds the
    gradient [g], each rule returns the heap with the contributions added.
    The result is distinct from its operands, which may be one object. *)
Section closure_rules.
Context (h : heap) (a b o : ref) (g x y : Qc).
Hypothesis (Ha : data_at h a = Some x) (Hb : data_at h b = Some y).
Hypothesis (Ho : grad_at h o = Some g).
Hypothesis (Hoa : o ≠ a) (Hob : o ≠ b).

Local Lemma a_lt : (a < length h)%nat.
Proof. exact (at_lt data h a x Ha). Qed.

Local Lemma b_lt : (b < length h)%nat.
Proof. exact (at_lt data h b y Hb). Qed.

Lemma run_BwAdd :
  run_closure (BwAdd a b o) h = Ok tt (add_grad b g (add_grad a g h)).
Proof.
  pose proof a_lt. pose proof b_lt. simpl. do 3 step.
  apply grad_iadd_ok. by heap_facts.
Qed.

Lemma run_BwSub :
  run_closure (BwSub a b o) h = Ok tt (add_grad b (- g) (add_grad a g h)).
Proof.
  pose proof a_lt. pose proof b_lt. simpl. do 3 step.
  apply grad_isub_ok. by heap_facts.
Qed.

Lemma run_BwMul :
  run_closure (BwMul a b o) h
  = Ok tt (add_grad b (g * x) (add_grad a (g * y) h)).
Proof.
  pose proof a_lt. pose proof b_lt. simpl. do 5 step.
  apply grad_iadd_ok. by heap_facts.
Qed.

Lemma run_BwDiv :
  y ≠ 0 →
  run_closure (BwDiv a b o) h
  = Ok tt (add_grad b (g * (- x / (y * y))) (add_grad a (g / y) h)).
Proof.
  intros Hy. pose proof a_lt. pose proof b_lt.
  assert (y * y ≠ 0) by (intros E; by apply Qcmult_integral in E as [|]).
  simpl. do 8 step. apply grad_iadd_ok. by heap_facts.
Qed.

Lemma run_BwDiv_zero :
  y = 0 → run_closure (BwDiv a b o) h = Raise ZeroDivisionError h.
Proof. intros ->. simpl. do 2 step. apply bind_py_div_zero. Qed.
End closure_rules.

Lemma run_BwRelu (h : heap) (a o : ref) (g v : Qc) :
  (a < length h)%nat → data_at h o = Some v → grad_at h o = Some g →
  run_closure (BwRelu a o) h
  = Ok tt (add_grad a ((if decide (0 < v) then 1 else 0) * g) h).
Proof. intros. simpl. do 2 step. by apply grad_iadd_ok. Qed.

(** ** Later heaps *)

Lemma evolves_refl h : evolves h h.
Proof. intros i nd Hi. exists (grad nd). by destruct nd. Qed.

Lemma evolves_trans h1 h2 h3 : evolves h1 h2 → evolves h2 h3 → evolves h1 h3.
Proof.
  intros H12 H23 i nd Hi. destruct (H12 i nd Hi) as [g Hg].
  destruct (H23 i _ Hg) as [g' Hg']. exists g'. by rewrite Hg'.
Qed.

Lemma evolves_app h l : evolves h (h ++ l).
Proof.
  intros i nd Hi. exists (grad nd).
  rewrite (lookup_app_l_Some _ _ _ _ Hi). by destruct nd.
Qed.

Lemma evolves_alter_grad (f : Scalar → Qc) (r : ref) (h : heap) :
  evolves h (alter (λ nd, with_grad (f nd) nd) r h).
Proof.
  intros i nd Hi. destruct (decide (i = r)) as [->|].
  - exists (f nd). by rewrite list_lookup_alter_eq, Hi.
  - exists (grad nd). rewrite list_lookup_alter_ne, Hi by done. by destruct nd.
Qed.

Lemma evolves_add_grad r v h : evolves h (add_grad r v h).
Proof. apply (evolves_alter_grad (λ nd, grad nd + v)). Qed.

Lemma evolves_length h h' : evolves h h' → (length h ≤ length h')%nat.
Proof.
  intros He. destruct (decide (length h = 0%nat)) as [|Hn]; [lia|].
  destruct (lookup_lt_is_Some_2 h (pred (length h))) as [nd Hnd]; [lia|].
  destruct (He _ _ Hnd) as [g Hg]. apply lookup_lt_Some in Hg. lia.
Qed.

Lemma evolves_data h h' r x :
  evolves h h' → data_at h r = Some x → data_at h' r = Some x.
Proof.
  unfold data_at. intros He Hx. destruct (h !! r) as [nd|] eqn:E; [|done].
  destruct (He _ _ E) as [g ->]. done.
Qed.

Lemma evolves_backward h h' r c :
  evolves h h' → backward_at h r = Some c → backward_at h' r = Some c.
Proof.
  unfold backward_at. intros He Hx. destruct (h !! r) as [nd|] eqn:E; [|done].
  destruct (He _ _ E) as [g ->]. done.
Qed.

Lemma grads_only_refl h : grads_only h h.
Proof. split; [done | apply evolves_refl]. Qed.

Lemma grads_only_trans h1 h2 h3 :
  grads_only h1 h2 → grads_only h2 h3 → grads_only h1 h3.
Proof.
  intros [L1 E1] [L2 E2]. split; [congruence | by eapply evolves_trans].
Qed.

Lemma grads_only_add_grad r v h : grads_only h (add_grad r v h).
Proof. split; [apply length_add_grad | apply evolves_add_grad]. Qed.

(** ** What each method returns *)

(** Construction followed by [out._backward = _backward]. *)
Lemma init_attach d cs op (c : ref → closure) h :
  (let* out := __init__ d cs op in
   let* _ := write (with_backward (c out)) out in
   ret out) h
  = Ok (length h) (h ++ [mkScalar d 0 (c (length h)) (list_to_set cs) op]).
Proof.
  unfold bind, __init__, write, ret.
  rewrite list_lookup_middle by done. f_equal.
  rewrite insert_app_r_alt by done. by rewrite Nat.sub_diag.
Qed.

Section binary_methods.
Context (h : heap) (a b : ref) (x y : Qc).
Hypothesis (Ha : data_at h a = Some x) (Hb : data_at h b = Some y).

Lemma add_Scalar :
  __add__ a (PyScalar b) h
  = Ok (length h)
       (h ++ [mkScalar (x + y) 0 (BwAdd a b (length h)) (list_to_set [a; b]) "+"]).
Proof.
  unfold __add__, lift, scalar_of. do 4 step.
  apply (init_attach _ _ _ (BwAdd a b)).
Qed.

Lemma sub_Scalar :
  __sub__ a (PyScalar b) h
  = Ok (length h)
       (h ++ [mkScalar (x - y) 0 (BwSub a b (length h)) (list_to_set [a; b]) "-"]).
Proof.
  unfold __sub__, lift, scalar_of. do 4 step.
  apply (init_attach _ _ _ (BwSub a b)).
Qed.

Lemma mul_Scalar :
  __mul__ a (PyScalar b) h
  = Ok (length h)
       (h ++ [mkScalar (x * y) 0 (BwMul a b (length h)) (list_to_set [a; b]) "*"]).
Proof.
  unfold __mul__, lift, scalar_of. do 4 step.
  apply (init_attach _ _ _ (BwMul a b)).
Qed.

Lemma truediv_Scalar :
  y ≠ 0 →
  __truediv__ a (PyScalar b) h
  = Ok (length h)
       (h ++ [mkScalar (x / y) 0 (BwDiv a b (length h)) (list_to_set [a; b]) "/"]).
Proof.
  intros Hy. unfold __truediv__, lift, scalar_of. do 5 step.
  apply (init_attach _ _ _ (BwDiv a b)).
Qed.

Lemma truediv_Scalar_zero :
  y = 0 → __truediv__ a (PyScalar b) h = Raise ZeroDivisionError h.
Proof.
  intros ->. unfold __truediv__, lift, scalar_of. do 4 step.
  apply bind_py_div_zero.
Qed.
End binary_methods.

Lemma relu_Scalar (h : heap) (a : ref) (x : Qc) :
  data_at h a = Some x →
  relu a h
  = Ok (length h)
       (h ++ [mkScalar (if decide (x < 0) then 0 else x) 0
                (BwRelu a (length h)) (list_to_set [a]) "ReLU"]).
Proof.
  intros Ha. unfold relu. step. apply (init_attach _ _ _ (BwRelu a)).
Qed.

(** ** The contract of the binary operations *)

Lemma rule_spec (op : binop) (h : heap) (a b o : ref) (g x y : Qc) :
  data_at h a = Some x → data_at h b = Some y → grad_at h o = Some g →
  o ≠ a → o ≠ b → (op = Div → y ≠ 0) →
  run_closure (rule op a b o) h
  = Ok tt (add_grad b (table op g x y).2 (add_grad a (table op g x y).1 h)).
Proof.
  intros Ha Hb Ho Hoa Hob Hy. destruct op; simpl rule; simpl table.
  - by eapply run_BwAdd.
  - by eapply run_BwSub.
  - by eapply run_BwMul.
  - eapply run_BwDiv; eauto.
Qed.

Lemma method_spec (op : binop) (h : heap) (a b : ref) (x y : Qc) :
  data_at h a = Some x → data_at h b = Some y → (op = Div → y ≠ 0) →
  method op a (PyScalar b) h
  = Ok (length h)
       (h ++ [mkScalar (forward_value op x y) 0 (rule op a b (length h))
                (list_to_set [a; b])
                (match op with Add => "+" | Sub => "-" | Mul => "*" | Div => "/" end)]).
Proof.
  intros Ha Hb Hy. destruct op; simpl.
  - by apply add_Scalar.
  - by apply sub_Scalar.
  - by apply mul_Scalar.
  - apply truediv_Scalar; auto.
Qed.

Lemma call_backward_at (h : heap) (o : ref) (c : closure) :
  backward_at h o = Some c → call_backward o h = run_closure c h.
Proof. intros H. unfold call_backward. by erewrite bind_read by exact H. Qed.

Lemma method_contract (op : binop) (h : heap) (a b : ref) (x y : Qc) :
  data_at h a = Some x → data_at h b = Some y → (op = Div → y ≠ 0) →
  ∃ h', method op a (PyScalar b) h = Ok (length h) h'
    ∧ length h' = S (length h)
    ∧ (∀ i, (i < length h)%nat → h' !! i = h !! i)
    ∧ data_at h' (length h) = Some (forward_value op x y)
    ∧ prev_at h' (length h) = Some {[a; b]}
    ∧ ∀ h2 g, evolves h' h2 → grad_at h2 (length h) = Some g →
        call_backward (length h) h2
        = Ok tt (add_grad b (table op g x y).2
                   (add_grad a (table op g x y).1 h2)).
Proof.
  intros Ha Hb Hy. eexists. split; [by apply method_spec|].
  pose proof (at_lt _ _ _ _ Ha) as Hla. pose proof (at_lt _ _ _ _ Hb) as Hlb.
  split; [rewrite length_app; simpl; lia|].
  split; [intros i Hi; by apply lookup_app_l|].
  split; [unfold data_at; by rewrite list_lookup_middle|].
  split.
  { unfold prev_at. rewrite list_lookup_middle by done. simpl.
    by rewrite (right_id_L ∅ (∪)). }
  intros h2 g He Hg.
  erewrite call_backward_at; cycle 1.
  { eapply evolves_backward; [exact He|].
    unfold backward_at. by rewrite list_lookup_middle. }
  apply rule_spec; try done; try lia.
  - eapply evolves_data; [exact He|]. eapply evolves_data; [apply evolves_app|done].
  - eapply evolves_data; [exact He|]. eapply evolves_data; [apply evolves_app|done].
Qed.

(** C1. For nodes [a] and [b] holding [x] and [y] ([y] nonzero for divide),
    each binary operation returns a new node, leaves the old ones as they
    are, gives the new node the forward value of the operation and the
    operands [a] and [b], and attaches a rule that, run on any later heap in
    which the new node has gradient [g], adds exactly the contributions of
    the table to the gradients of [a] and [b]. For the leaves 2 and 3,
    backward on their product leaves the gradients 3 and 2. *)
Theorem binary_operation_contract :
  (∀ (op : binop) (h : heap) (a b : ref) (x y : Qc),
     data_at h a = Some x → data_at h b = Some y → (op = Div → y ≠ 0) →
     ∃ h', method op a (PyScalar b) h = Ok (length h) h'
       ∧ length h' = S (length h)
       ∧ (∀ i, (i < length h)%nat → h' !! i = h !! i)
       ∧ data_at h' (length h) = Some (forward_value op x y)
       ∧ prev_at h' (length h) = Some {[a; b]}
       ∧ ∀ h2 g, evolves h' h2 → grad_at h2 (length h) = Some g →
           call_backward (length h) h2
           = Ok tt (add_grad b (table op g x y).2
                      (add_grad a (table op g x y).1 h2)))
  ∧ ∃ h, run (let* a := leaf (Qc_of_Z 2) in
              let* b := leaf (Qc_of_Z 3) in
              let* p := __mul__ a (PyScalar b) in
              let* _ := backward p in
              ret (a, b)) = Ok (0%nat, 1%nat) h
       ∧ grad_at h 0 = Some (Qc_of_Z 3)
       ∧ grad_at h 1 = Some (Qc_of_Z 2).
Proof.
  split; [exact method_contract|].
  eexists. split; [vm_compute; reflexivity|]. split; compute_done.
Qed.

Lemma binary_operation_contract_witness :
  data_at [lifted (Qc_of_Z 6); lifted (Qc_of_Z 3)] 0 = Some (Qc_of_Z 6)
  ∧ data_at [lifted (Qc_of_Z 6); lifted (Qc_of_Z 3)] 1 = Some (Qc_of_Z 3)
  ∧ ∃ h', method Div 0 (PyScalar 1) [lifted (Qc_of_Z 6); lifted (Qc_of_Z 3)]
          = Ok 2%nat h'
        ∧ data_at h' 2 = Some (forward_value Div (Qc_of_Z 6) (Qc_of_Z 3)).
Proof.
  split; [reflexivity|]. split; [reflexivity|].
  destruct (proj1 binary_operation_contract Div
              [lifted (Qc_of_Z 6); lifted (Qc_of_Z 3)] 0%nat 1%nat
              (Qc_of_Z 6) (Qc_of_Z 3))
    as (h' & Hm & _ & _ & Hd & _).
  - reflexivity.
  - reflexivity.
  - intros _. compute_done.
  - exists h'. split; [exact Hm | exact Hd].
Defined.

(** ** The operand graph of a well-formed heap *)

Lemma wf_operand_lt h o c : wf h → operand h o c → (o < c)%nat.
Proof. intros Hwf (nd & Hc & Ho). by apply (Hwf c nd Hc). Qed.

Lemma wf_reachable_le h t x : wf h → reachable h t x → (x ≤ t)%nat.
Proof.
  intros Hwf. induction 1 as [|c o _ IH Hop]; [done|].
  pose proof (wf_operand_lt _ _ _ Hwf Hop). lia.
Qed.

Lemma reachable_trans h t c x :
  reachable h t c → reachable h c x → reachable h t x.
Proof. intros Htc. induction 1; [done | by eapply reach_step]. Qed.

Lemma topo_ok_closed h T c o :
  topo_ok h T → c ∈ T → operand h o c → o ∈ T.
Proof.
  intros [_ Hord] [i Hi]%list_elem_of_lookup Hop.
  destruct (Hord i c o Hi Hop) as (j & _ & Hj).
  apply list_elem_of_lookup. eauto.
Qed.

Lemma topo_ok_reachable h T t x :
  topo_ok h T → t ∈ T → reachable h t x → x ∈ T.
Proof. intros Hok Ht. induction 1; [done | by eapply topo_ok_closed]. Qed.

(** ** The traversal [build_topo] *)

Lemma agree_grow k V T new :
  agree k V T → agree k (V ∪ list_to_set new) (T ++ new).
Proof.
  intros Hag m Hm. rewrite elem_of_union, elem_of_list_to_set, elem_of_app.
  by rewrite (Hag m Hm).
Qed.

Lemma agree_mono k k' V T : (k' ≤ k)%nat → agree k V T → agree k' V T.
Proof. intros Hk Hag m Hm. apply Hag. lia. Qed.

Section traversal.
Context (h : heap) (Hwf : wf h).

Lemma fold_build_topo (f : nat) (n : ref) :
  (∀ c V T, (c < n)%nat → (c < length h)%nat → topo_ok h T →
     agree (S c) V T →
     ∃ V' T', build_topo h f c (V, T) = Some (V', T')
       ∧ topo_post h c V T V' T') →
  ∀ cs V T, (∀ c, c ∈ cs → (c < n)%nat ∧ (c < length h)%nat) →
    topo_ok h T → agree n V T →
    ∃ V' T' new,
      foldl (λ acc child, acc ≫= build_topo h f child) (Some (V, T)) cs
      = Some (V', T')
      ∧ T' = T ++ new ∧ V' = V ∪ list_to_set new
      ∧ (∀ x, x ∈ new → ∃ c, c ∈ cs ∧ reachable h c x)
      ∧ topo_ok h T' ∧ (∀ c, c ∈ cs → c ∈ T').
Proof.
  intros IH cs. induction cs as [|c cs IHcs]; intros V T Hcs Hok Hag.
  - exists V, T, []. simpl. rewrite app_nil_r, (right_id_L ∅ (∪)).
    split_and!; try done; intros x Hx; by apply elem_of_nil in Hx.
  - destruct (Hcs c) as [Hcn Hcl]; [by left|].
    destruct (IH c V T Hcn Hcl Hok) as (V1 & T1 & Hrun & new1 & -> & -> & Hr1 & Hok1 & Hc1 & _).
    { eapply agree_mono; [|exact Hag]. lia. }
    destruct (IHcs (V ∪ list_to_set new1) (T ++ new1))
      as (V' & T' & new2 & Hfold & -> & -> & Hr2 & Hok2 & Hin2).
    { intros c' Hc'. apply Hcs. by right. }
    { done. }
    { by apply agree_grow. }
    exists (V ∪ list_to_set new1 ∪ list_to_set new2), ((T ++ new1) ++ new2),
      (new1 ++ new2).
    split; [simpl; by rewrite Hrun|].
    split; [by rewrite app_assoc|].
    split; [by rewrite list_to_set_app_L, (assoc_L (∪))|].
    split.
    { intros x [Hx|Hx]%elem_of_app.
      - exists c. split; [by left | by apply Hr1].
      - destruct (Hr2 x Hx) as (c' & Hc' & Hr). exists c'. split; [by right|done]. }
    split; [done|].
    intros c' [->|Hc']%elem_of_cons; [|by apply Hin2].
    apply elem_of_app. by left.
Qed.

Lemma build_topo_spec (f : nat) :
  ∀ n V T, (n < f)%nat → (n < length h)%nat → topo_ok h T →
    agree (S n) V T →
    ∃ V' T', build_topo h f n (V, T) = Some (V', T')
      ∧ topo_post h n V T V' T'.
Proof.
  induction f as [|f IHf]; intros n V T Hnf Hnl Hok Hag; [lia|].
  simpl. destruct (decide (n ∈ V)) as [HnV|HnV].
  { exists V, T. split; [done|]. exists []. simpl.
    rewrite app_nil_r, (right_id_L ∅ (∪)).
    split_and!; try done.
    - intros x Hx. by apply elem_of_nil in Hx.
    - apply (Hag n); [lia | done].
    - by left. }
  destruct (lookup_lt_is_Some_2 h n Hnl) as [nd Hnd]. rewrite Hnd. simpl.
  assert (Hchild : ∀ c, c ∈ elements (_prev nd) → (c < n)%nat ∧ (c < length h)%nat).
  { intros c Hc%elem_of_elements.
    assert (c < n)%nat by (by apply (Hwf n nd Hnd)). lia. }
  destruct (fold_build_topo f n) with
    (cs := elements (_prev nd)) (V := {[n]} ∪ V) (T := T)
    as (V2 & T2 & new2 & Hfold & -> & -> & Hr2 & Hok2 & Hin2); try done.
  { intros c V0 T0 Hc. apply IHf. lia. }
  { intros m Hm. rewrite elem_of_union, elem_of_singleton.
    rewrite <- (Hag m) by lia. split; [|by right]. intros [->|]; [lia|done]. }
  rewrite Hfold. simpl. eexists _, _. split; [done|].
  assert (Hnew_lt : ∀ x, x ∈ new2 → (x < n)%nat).
  { intros x Hx. destruct (Hr2 x Hx) as (c & Hc & Hreach).
    apply Hchild in Hc. apply (wf_reachable_le _ _ _ Hwf) in Hreach. lia. }
  assert (HnT : n ∉ T ++ new2).
  { intros [Hn|Hn]%elem_of_app.
    - apply HnV. apply (Hag n); [lia|done].
    - apply Hnew_lt in Hn. lia. }
  exists (new2 ++ [n]). split; [by rewrite app_assoc|].
  split.
  { rewrite list_to_set_app_L. simpl. rewrite (right_id_L ∅ (∪)).
    rewrite (comm_L (∪) {[n]} V), <- !(assoc_L (∪)).
    f_equal. apply (comm_L (∪)). }
  split.
  { intros x [Hx|Hx%list_elem_of_singleton]%elem_of_app; [|subst; constructor].
    destruct (Hr2 x Hx) as (c & Hc%elem_of_elements & Hreach).
    eapply reachable_trans; [|exact Hreach].
    eapply reach_step; [constructor|]. by exists nd. }
  split.
  { destruct Hok2 as [Hnd2 Hord2]. split.
    - apply NoDup_app. split; [done|]. split; [|apply NoDup_singleton].
      intros x Hx ->%list_elem_of_singleton. done.
    - intros i c o Hi Hop. apply lookup_snoc_Some in Hi as [[Hlt Hi]|[-> <-]].
      + destruct (Hord2 i c o Hi Hop) as (j & Hj & Hjo).
        exists j. split; [done|]. by apply lookup_app_l_Some.
      + destruct Hop as (nd' & Hnd' & Ho). simplify_eq.
        assert (o ∈ T ++ new2) as [j Hj]%list_elem_of_lookup.
        { apply Hin2. by apply elem_of_elements. }
        exists j. split; [by eapply lookup_lt_Some|].
        by apply lookup_app_l_Some. }
  split; [apply elem_of_app; right; by left|].
  right. apply last_snoc.
Qed.
End traversal.

Lemma topo_of_spec (h : heap) (t : ref) :
  wf h → (t < length h)%nat →
  ∃ topo, topo_of h t = Some topo ∧ topo_ok h topo
    ∧ (∀ x, x ∈ topo ↔ reachable h t x) ∧ last topo = Some t.
Proof.
  intros Hwf Ht.
  destruct (build_topo_spec h Hwf (S (length h)) t ∅ [])
    as (V' & T' & Hrun & new & -> & _ & Hreach & Hok & Hin & Hlast);
    [lia | done | | |].
  { split; [constructor|]. intros i c o Hi. by rewrite lookup_nil in Hi. }
  { intros m _. split; [set_solver | by intros ?%elem_of_nil]. }
  exists ([] ++ new). unfold topo_of. rewrite Hrun. split; [done|].
  split; [done|]. split.
  - intros x. split; [apply Hreach | by apply topo_ok_reachable].
  - by destruct Hlast as [?%not_elem_of_empty|].
Qed.

(** ** Heaps that differ in gradients only *)

Lemma grads_only_lookup h h' i nd' :
  grads_only h h' → h' !! i = Some nd' →
  ∃ nd g, h !! i = Some nd ∧ nd' = with_grad g nd.
Proof.
  intros [Hlen He] Hi.
  destruct (lookup_lt_is_Some_2 h i) as [nd Hnd].
  { rewrite <- Hlen. by eapply lookup_lt_Some. }
  destruct (He i nd Hnd) as [g Hg]. exists nd, g. split; [done|].
  by simplify_eq.
Qed.

Lemma grads_only_operand h h' o c :
  grads_only h h' → operand h' o c ↔ operand h o c.
Proof.
  intros Hg. split.
  - intros (nd' & Hc & Ho).
    destruct (grads_only_lookup _ _ _ _ Hg Hc) as (nd & g & Hnd & ->).
    by exists nd.
  - intros (nd & Hc & Ho). destruct (proj2 Hg c nd Hc) as [g Hc'].
    by exists (with_grad g nd).
Qed.

Lemma grads_only_data h h' r : grads_only h h' → data_at h' r = data_at h r.
Proof.
  intros Hg. unfold data_at. destruct (h' !! r) as [nd'|] eqn:E.
  - destruct (grads_only_lookup _ _ _ _ Hg E) as (nd & g & -> & ->). done.
  - apply lookup_ge_None in E. destruct Hg as [Hlen _]. rewrite Hlen in E.
    apply lookup_ge_None in E. by rewrite E.
Qed.

Lemma wf_grads_only h h' : wf h → grads_only h h' → wf h'.
Proof.
  intros Hwf Hg i nd' Hi.
  destruct (grads_only_lookup _ _ _ _ Hg Hi) as (nd & g & Hnd & ->).
  destruct (Hwf i nd Hnd) as [Hprev Hc]. split; [done|].
  unfold closure_ok in *. simpl.
  destruct (_backward nd); try done.
  by rewrite (grads_only_data _ _ _ Hg).
Qed.

Lemma grads_only_write_grad (h : heap) (r : ref) g nd :
  h !! r = Some nd → grads_only h (<[r := with_grad g nd]> h).
Proof.
  intros Hr. split; [apply length_insert|].
  rewrite (write_grad_alter _ _ _ _ Hr).
  apply (evolves_alter_grad (λ _, g)).
Qed.

(** ** Running the rules *)

Lemma wf_closure_data h x nd o :
  wf h → h !! x = Some nd → o ∈ _prev nd →
  (o < x)%nat ∧ ∃ v, data_at h o = Some v.
Proof.
  intros Hwf Hx Ho. assert (o < x)%nat by (by apply (Hwf x nd Hx)).
  split; [done|]. apply lookup_lt_Some in Hx.
  destruct (lookup_lt_is_Some_2 h o) as [ndo Hndo]; [lia|].
  exists (data ndo). unfold data_at. by rewrite Hndo.
Qed.

Lemma grads_only_add_grads cs : ∀ h, grads_only h (add_grads cs h).
Proof.
  induction cs as [|p cs IH]; intros h; [apply grads_only_refl|].
  eapply grads_only_trans; [apply grads_only_add_grad | apply IH].
Qed.

Lemma lookup_add_grads_ne cs j :
  ∀ h, (∀ r v, (r, v) ∈ cs → r ≠ j) → add_grads cs h !! j = h !! j.
Proof.
  induction cs as [|[r v] cs IH]; intros h Hcs; [done|].
  simpl. change (add_grads cs (add_grad r v h) !! j = h !! j).
  rewrite IH by (intros r' v' Hin; apply (Hcs r' v'); by right).
  apply lookup_add_grad_ne. intros ->. eapply Hcs; [by left | done].
Qed.

Lemma grad_at_add_grad r v h l :
  grad_at (add_grad r v h) l
  = (λ g, g + (if decide (r = l) then v else 0)) <$> grad_at h l.
Proof.
  destruct (decide (r = l)) as [->|].
  - apply grad_at_add_grad_eq.
  - rewrite grad_at_add_grad_ne by done.
    destruct (grad_at h l); simpl; [|done]. by rewrite Qcplus_0_r.
Qed.

Lemma grad_at_add_grads cs l :
  ∀ h, grad_at (add_grads cs h) l = (λ g, g + delta cs l) <$> grad_at h l.
Proof.
  induction cs as [|[r v] cs IH]; intros h.
  - simpl. destruct (grad_at h l); simpl; [|done]. by rewrite Qcplus_0_r.
  - change (grad_at (add_grads cs (add_grad r v h)) l
            = (λ g, g + delta ((r, v) :: cs) l) <$> grad_at h l).
    rewrite IH, grad_at_add_grad.
    destruct (grad_at h l); simpl; [|done]. by rewrite Qcplus_assoc.
Qed.

(** On a well-formed heap the rule of [x] returns, and what it has done is
    to add its contributions. *)
Lemma call_backward_contributions (h : heap) (x : ref) :
  wf h → (x < length h)%nat →
  call_backward x h = Ok tt (add_grads (contributions h x) h).
Proof.
  intros Hwf Hx. destruct (lookup_lt_is_Some_2 h x Hx) as [nd Hnd].
  rewrite (call_backward_at h x (_backward nd))
    by (unfold backward_at; by rewrite Hnd).
  assert (Hgx : grad_at h x = Some (grad nd)) by (unfold grad_at; by rewrite Hnd).
  assert (Hdx : data_at h x = Some (data nd)) by (unfold data_at; by rewrite Hnd).
  destruct (Hwf x nd Hnd) as [_ Hc]. unfold closure_ok in Hc.
  unfold contributions. rewrite Hnd.
  destruct (_backward nd) as [|a b o|a b o|a b o|a b o|a o] eqn:Hbw;
    cbn [add_grads foldl fst snd].
  - done.
  - destruct Hc as (-> & Ha & Hb).
    destruct (wf_closure_data h x nd a Hwf Hnd Ha) as (? & va & Hva).
    destruct (wf_closure_data h x nd b Hwf Hnd Hb) as (? & vb & Hvb).
    eapply run_BwAdd; eauto; lia.
  - destruct Hc as (-> & Ha & Hb).
    destruct (wf_closure_data h x nd a Hwf Hnd Ha) as (? & va & Hva).
    destruct (wf_closure_data h x nd b Hwf Hnd Hb) as (? & vb & Hvb).
    eapply run_BwSub; eauto; lia.
  - destruct Hc as (-> & Ha & Hb).
    destruct (wf_closure_data h x nd a Hwf Hnd Ha) as (? & va & Hva).
    destruct (wf_closure_data h x nd b Hwf Hnd Hb) as (? & vb & Hvb).
    rewrite Hva, Hvb. eapply run_BwMul; eauto; lia.
  - destruct Hc as (-> & Ha & Hb & Hy).
    destruct (wf_closure_data h x nd a Hwf Hnd Ha) as (? & va & Hva).
    destruct (wf_closure_data h x nd b Hwf Hnd Hb) as (? & vb & Hvb).
    rewrite Hvb in Hy. rewrite Hva, Hvb. eapply run_BwDiv; eauto; lia.
  - destruct Hc as (-> & Ha).
    destruct (wf_closure_data h x nd a Hwf Hnd Ha) as (? & va & Hva).
    eapply run_BwRelu; eauto; lia.
Qed.

(** Contributions go to operands of the node. *)
Lemma contributions_operand (h : heap) (x r : ref) (v : Qc) :
  wf h → (r, v) ∈ contributions h x → operand h r x.
Proof.
  intros Hwf. unfold contributions.
  destruct (h !! x) as [nd|] eqn:Hnd; [|by intros ?%elem_of_nil].
  destruct (Hwf x nd Hnd) as [_ Hc]. unfold closure_ok in Hc.
  intros Hin. exists nd. split; [done|].
  destruct (_backward nd);
    repeat (apply elem_of_cons in Hin as [Hin|Hin];
            [injection Hin as -> ->; tauto|]);
    by apply elem_of_nil in Hin.
Qed.

(** They are the same on two heaps that differ in gradients only and
    agree on the gradient of the node. *)
Lemma contributions_grads_only (h h' : heap) (x : ref) :
  grads_only h h' → grad_at h' x = grad_at h x →
  contributions h' x = contributions h x.
Proof.
  intros Hg Hx. unfold contributions.
  destruct (h' !! x) as [nd'|] eqn:E.
  - destruct (grads_only_lookup _ _ _ _ Hg E) as (nd & g & Hnd & ->).
    unfold grad_at in Hx. rewrite E, Hnd in Hx. simpl in Hx.
    rewrite Hnd. simpl. injection Hx as ->.
    destruct (_backward nd); try done;
      by rewrite ?(grads_only_data _ _ _ Hg).
  - apply lookup_ge_None in E. rewrite (proj1 Hg) in E.
    apply lookup_ge_None in E. by rewrite E.
Qed.

(** On a well-formed heap a rule returns; it changes gradients only, and
    only those of operands of its node. *)
Lemma call_backward_ok (h : heap) (x : ref) :
  wf h → (x < length h)%nat →
  ∃ h', call_backward x h = Ok tt h' ∧ grads_only h h'
    ∧ ∀ j, ¬ operand h j x → h' !! j = h !! j.
Proof.
  intros Hwf Hx. exists (add_grads (contributions h x) h).
  split; [by apply call_backward_contributions|].
  split; [apply grads_only_add_grads|].
  intros j Hj. apply lookup_add_grads_ne. intros r v Hin ->.
  apply Hj. by eapply contributions_operand.
Qed.

Lemma for_each_call_backward_ok (l : list ref) :
  ∀ h : heap, wf h → (∀ x, x ∈ l → (x < length h)%nat) →
  ∃ h', for_each l call_backward h = Ok tt h' ∧ grads_only h h'
    ∧ ∀ j, (∀ x, x ∈ l → ¬ operand h j x) → h' !! j = h !! j.
Proof.
  induction l as [|x l IH]; intros h Hwf Hl.
  - exists h. split; [done|]. split; [apply grads_only_refl | done].
  - destruct (call_backward_ok h x Hwf) as (h1 & Hrun & Hg1 & Hframe1).
    { apply Hl. by left. }
    destruct (IH h1) as (h' & Hrun' & Hg' & Hframe').
    { by eapply wf_grads_only. }
    { intros y Hy. rewrite (proj1 Hg1). apply Hl. by right. }
    exists h'. split; [simpl; by rewrite (bind_Ok _ _ _ _ _ Hrun)|].
    split; [by eapply grads_only_trans|].
    intros j Hj. rewrite Hframe', Hframe1; [done | apply Hj; by left|].
    intros y Hy. rewrite (grads_only_operand _ _ _ _ Hg1). apply Hj. by right.
Qed.

(** [backward] returns on every well-formed heap. *)
Lemma backward_ok (h : heap) (t : ref) :
  wf h → (t < length h)%nat →
  ∃ topo nd h',
    topo_of h t = Some topo ∧ h !! t = Some nd
    ∧ for_each (reverse topo) call_backward (<[t := with_grad 1 nd]> h)
      = Ok tt h'
    ∧ backward t h = Ok tt h'
    ∧ grads_only h h'
    ∧ h' !! t = Some (with_grad 1 nd).
Proof.
  intros Hwf Ht.
  destruct (topo_of_spec h t Hwf Ht) as (topo & Htopo & Hok & Hmem & Hlast).
  destruct (lookup_lt_is_Some_2 h t Ht) as [nd Hnd].
  pose proof (grads_only_write_grad h t 1 nd Hnd) as Hg0.
  destruct (for_each_call_backward_ok (reverse topo) (<[t := with_grad 1 nd]> h))
    as (h' & Hrun & Hg & Hframe).
  { by eapply wf_grads_only. }
  { intros x Hx%elem_of_reverse%Hmem. rewrite length_insert.
    apply (wf_reachable_le _ _ _ Hwf) in Hx. lia. }
  exists topo, nd, h'. split; [done|]. split; [done|]. split; [done|].
  split.
  { unfold backward. rewrite Htopo. unfold bind, write. by rewrite Hnd. }
  split; [by eapply grads_only_trans|].
  rewrite Hframe; [by apply list_lookup_insert_eq|].
  intros x Hx%elem_of_reverse%Hmem Hop.
  apply (grads_only_operand _ _ _ _ Hg0) in Hop.
  apply (wf_reachable_le _ _ _ Hwf) in Hx.
  apply (wf_operand_lt _ _ _ Hwf) in Hop. lia.
Qed.

(** ** The order in which [backward] invokes the rules *)

Lemma consumers_first_tail (h : heap) (x : ref) (l : list ref) :
  consumers_first h (x :: l) →
  consumers_first h l ∧ ∀ y, y ∈ x :: l → ¬ operand h x y.
Proof.
  intros [Hnd Hord]. split; [split|].
  - by apply NoDup_cons in Hnd as [_ ?].
  - intros i k c o Hi Hk Hop.
    assert (S i < S k)%nat by (by apply (Hord (S i) (S k) c o)). lia.
  - intros y [k Hk]%list_elem_of_lookup Hop.
    assert (k < 0)%nat by (by apply (Hord k 0%nat y x)). lia.
Qed.

Lemma consumers_first_grads_only (h h' : heap) (l : list ref) :
  grads_only h h' → consumers_first h l → consumers_first h' l.
Proof.
  intros Hg [Hnd Hord]. split; [done|]. intros i k c o Hi Hk Hop.
  apply (Hord i k c o Hi Hk). by apply (grads_only_operand _ _ _ _ Hg).
Qed.

Lemma consumers_first_reverse (h : heap) (T : list ref) :
  topo_ok h T → consumers_first h (reverse T).
Proof.
  intros [Hnd Hord]. split; [by rewrite reverse_Permutation|].
  intros i k c o Hi Hk Hop.
  pose proof (lookup_lt_Some _ _ _ Hi) as Hil.
  pose proof (lookup_lt_Some _ _ _ Hk) as Hkl.
  rewrite length_reverse in Hil, Hkl.
  rewrite reverse_lookup in Hi, Hk by done.
  destruct (Hord _ c o Hi Hop) as (j & Hj & Hjo).
  pose proof (NoDup_lookup _ _ _ _ Hnd Hjo Hk). lia.
Qed.

Lemma strictly_before_reverse (T : list ref) (i j : nat) (c o : ref) :
  T !! i = Some c → T !! j = Some o → (j < i)%nat →
  strictly_before c o (reverse T).
Proof.
  intros Hi Hj Hlt.
  pose proof (lookup_lt_Some _ _ _ Hi) as Hil.
  exists (length T - S i)%nat, (length T - S j)%nat.
  rewrite !reverse_lookup by lia.
  replace (length T - S (length T - S i))%nat with i by lia.
  replace (length T - S (length T - S j))%nat with j by lia.
  split; [done|]. split; [done|]. lia.
Qed.

(** The loop of [backward] and the record of the invocations: on a
    well-formed heap every rule returns, the loop leaves the heap that the
    record ends with, the record lists the nodes in the order of the
    loop, and, when consumers come first, every rule is invoked with the
    gradient of its node already at its final value. *)
Lemma invocations_for_each (l : list ref) :
  ∀ h : heap, wf h → (∀ x, x ∈ l → (x < length h)%nat) →
  ∃ tr h', invocations l h = Some (tr, h')
    ∧ for_each l call_backward h = Ok tt h'
    ∧ tr.*1 = l
    ∧ (consumers_first h l →
       ∀ x hx, (x, hx) ∈ tr → grad_at hx x = grad_at h' x).
Proof.
  induction l as [|x l IH]; intros h Hwf Hl.
  - exists [], h. split_and!; try done.
    intros _ x hx Hin. by apply elem_of_nil in Hin.
  - assert (Hx : (x < length h)%nat) by (apply Hl; by left).
    destruct (lookup_lt_is_Some_2 h x Hx) as [nd Hnd].
    assert (Hbw : backward_at h x = Some (_backward nd)).
    { unfold backward_at. by rewrite Hnd. }
    pose proof (call_backward_contributions h x Hwf Hx) as Hrun1.
    pose proof Hrun1 as Hrule.
    rewrite (call_backward_at h x _ Hbw) in Hrule.
    pose proof (grads_only_add_grads (contributions h x) h) as Hg1.
    set (h1 := add_grads (contributions h x) h) in *.
    assert (Hwf1 : wf h1) by (by eapply wf_grads_only).
    assert (Hl1 : ∀ y, y ∈ l → (y < length h1)%nat).
    { intros y Hy. rewrite (proj1 Hg1). apply Hl. by right. }
    destruct (IH h1 Hwf1 Hl1) as (tr & h' & Hinv & Hrun & Hfst & Hfinal).
    exists ((x, h) :: tr), h'.
    split. { simpl. rewrite Hbw. simpl. by rewrite Hrule, Hinv. }
    split. { simpl. by rewrite (bind_Ok _ _ _ _ _ Hrun1). }
    split. { rewrite fmap_cons. simpl. by f_equal. }
    intros Hcf y hy Hin.
    destruct (consumers_first_tail h x l Hcf) as [Hcf' Hnox].
    apply elem_of_cons in Hin as [Heq|Hin].
    + injection Heq as -> ->.
      destruct (for_each_call_backward_ok l h1 Hwf1 Hl1)
        as (h'' & Hrun' & _ & Hframe).
      assert (h'' = h') as -> by congruence.
      unfold grad_at. rewrite Hframe.
      * unfold h1. rewrite lookup_add_grads_ne; [done|].
        intros r v Hin ->. apply (Hnox x); [by left|].
        by eapply contributions_operand.
      * intros z Hz Hop. apply (Hnox z); [by right|].
        by apply (grads_only_operand _ _ _ _ Hg1).
    + apply Hfinal; [|done]. by eapply consumers_first_grads_only.
Qed.

(** C3. On a graph built by the class, [backward(t)] returns, and the
    record [tr] of the invocations [node._backward()] it has made, each
    with the heap it was made in, is this: the rules stored in the nodes
    of [reverse topo] are run one after the other, starting in the heap
    in which the gradient of [t] has been set to 1, and the heap the last
    one leaves is the heap [backward] leaves. The record holds every node
    reachable from [t] through the operand relation, and no other; it
    holds none twice (membership is by reference, so nodes with equal
    values are kept apart); it starts with [t]; when the rule of an
    operand is invoked, the rule of each of its consumers in the reachable
    graph has been invoked at a strictly earlier position; and so every
    rule finds the gradient of its own node at the value it has when
    [backward] returns. *)
Theorem backward_topological_order (h : heap) (t : ref) :
  wf h → (t < length h)%nat →
  ∃ topo nd tr h',
    topo_of h t = Some topo ∧ h !! t = Some nd
    ∧ backward t h
      = for_each (reverse topo) call_backward (<[t := with_grad 1 nd]> h)
    ∧ backward t h = Ok tt h'
    ∧ invocations (reverse topo) (<[t := with_grad 1 nd]> h) = Some (tr, h')
    ∧ tr.*1 = reverse topo
    ∧ NoDup (reverse topo)
    ∧ (∀ x, x ∈ reverse topo ↔ reachable h t x)
    ∧ head (reverse topo) = Some t
    ∧ (∀ c o, reachable h t c → operand h o c →
         strictly_before c o (reverse topo))
    ∧ (∀ i o ho c, tr !! i = Some (o, ho) →
         reachable h t c → operand h o c →
         ∃ j hc, (j < i)%nat ∧ tr !! j = Some (c, hc))
    ∧ (∀ x hx, (x, hx) ∈ tr → grad_at hx x = grad_at h' x).
Proof.
  intros Hwf Ht.
  destruct (backward_ok h t Hwf Ht)
    as (topo & nd & h' & Htopo & Hnd & Hloop & Hback & _ & _).
  destruct (topo_of_spec h t Hwf Ht)
    as (topo' & Htopo' & [Hnodup Hord] & Hmem & Hlast).
  assert (topo' = topo) as -> by congruence.
  pose proof (grads_only_write_grad h t 1 nd Hnd) as Hg0.
  destruct (invocations_for_each (reverse topo) (<[t := with_grad 1 nd]> h))
    as (tr & h'' & Hinv & Hrun & Hfst & Hfinal).
  { by eapply wf_grads_only. }
  { intros x Hx. rewrite elem_of_reverse in Hx. apply Hmem in Hx.
    rewrite length_insert. apply (wf_reachable_le _ _ _ Hwf) in Hx. lia. }
  assert (h'' = h') as -> by congruence.
  assert (Hnodup' : NoDup (reverse topo)) by (by rewrite reverse_Permutation).
  assert (Hbefore : ∀ c o, reachable h t c → operand h o c →
                      strictly_before c o (reverse topo)).
  { intros c o [i Hi]%Hmem%list_elem_of_lookup Hop.
    destruct (Hord i c o Hi Hop) as (j & Hj & Hjo).
    by eapply strictly_before_reverse. }
  exists topo, nd, tr, h'. split; [done|]. split; [done|].
  split; [by rewrite Hback, Hloop|]. split; [done|].
  split; [done|]. split; [done|]. split; [done|].
  split; [intros x; by rewrite elem_of_reverse|].
  split; [by rewrite head_reverse|].
  split; [done|]. split.
  - intros i o ho c Hi Hc Hop.
    destruct (Hbefore c o Hc Hop) as (i' & j' & Hi' & Hj' & Hlt).
    assert (Ho : reverse topo !! i = Some o).
    { rewrite <- Hfst, list_lookup_fmap, Hi. done. }
    pose proof (NoDup_lookup _ _ _ _ Hnodup' Ho Hj') as ->.
    rewrite <- Hfst, list_lookup_fmap in Hi'.
    destruct (tr !! i') as [[c' hc]|] eqn:E; [|done].
    simpl in Hi'. injection Hi' as ->. by exists i', hc.
  - apply Hfinal. eapply consumers_first_grads_only; [exact Hg0|].
    by apply consumers_first_reverse.
Qed.

Lemma backward_topological_order_witness :
  wf example_heap ∧ (3 < length example_heap)%nat
  ∧ ∃ topo (tr : list (ref * heap)) h',
      topo_of example_heap 3 = Some topo
      ∧ backward 3 example_heap = Ok tt h'
      ∧ tr.*1 = [3; 2; 1; 0]%nat
      ∧ (λ p, grad_at p.2 p.1) <$> tr
        = [Some 1; Some 1; Some (Qc_of_Z 3); Some (Qc_of_Z 12)]
      ∧ grad_at h' 0 = Some (Qc_of_Z 12)
      ∧ head (reverse topo) = Some 3%nat
      ∧ strictly_before 1 0 (reverse topo).
Proof.
  assert (Hwf : wf example_heap) by compute_done.
  assert (Hlt : (3 < length example_heap)%nat) by (vm_compute; lia).
  split; [exact Hwf|]. split; [exact Hlt|].
  destruct (backward_topological_order example_heap 3 Hwf Hlt)
    as (topo & nd & tr & h' & Htopo & Hnd & _ & Hback & Hinv & Hfst & _ & _
        & Hhead & Hord & _).
  exists topo, tr, h'. split; [exact Htopo|]. split; [exact Hback|].
  split.
  { rewrite Hfst. vm_compute in Htopo. injection Htopo as <-. reflexivity. }
  split.
  { vm_compute in Htopo. injection Htopo as <-.
    vm_compute in Hnd. injection Hnd as <-.
    vm_compute in Hinv. injection Hinv as <- _. compute_done. }
  split.
  { vm_compute in Hback. injection Hback as <-. compute_done. }
  split; [exact Hhead|].
  apply Hord.
  - apply (reach_step _ _ 2 1); [apply (reach_step _ _ 3 2); [apply reach_refl|]|].
    + eexists. split; [reflexivity | compute_done].
    + eexists. split; [reflexivity | compute_done].
  - eexists. split; [reflexivity | compute_done].
Defined.

(** C10. On a graph built by the class, [backward(t)] returns and leaves
    the gradient of [t] at exactly 1, whatever it was before: the seed is
    assigned, and no node reachable from [t] has [t] among its operands,
    so no rule adds to it. *)
Theorem backward_seeds_terminal (h : heap) (t : ref) :
  wf h → (t < length h)%nat →
  ∃ h', backward t h = Ok tt h'
    ∧ grad_at h' t = Some 1
    ∧ ∀ x, reachable h t x → ¬ operand h t x.
Proof.
  intros Hwf Ht.
  destruct (backward_ok h t Hwf Ht)
    as (topo & nd & h' & _ & _ & _ & Hback & _ & Hgrad).
  exists h'. split; [done|]. split; [unfold grad_at; by rewrite Hgrad|].
  intros x Hx Hop. apply (wf_reachable_le _ _ _ Hwf) in Hx.
  apply (wf_operand_lt _ _ _ Hwf) in Hop. lia.
Qed.

Lemma backward_seeds_terminal_witness :
  wf (add_grad 3 (Qc_of_Z 7) example_heap)
  ∧ grad_at (add_grad 3 (Qc_of_Z 7) example_heap) 3 = Some (Qc_of_Z 7)
  ∧ ∃ h', backward 3 (add_grad 3 (Qc_of_Z 7) example_heap) = Ok tt h'
      ∧ grad_at h' 3 = Some 1.
Proof.
  assert (Hwf : wf (add_grad 3 (Qc_of_Z 7) example_heap)) by compute_done.
  split; [exact Hwf|]. split; [compute_done|].
  destruct (backward_seeds_terminal (add_grad 3 (Qc_of_Z 7) example_heap) 3 Hwf)
    as (h' & Hback & Hgrad & _).
  - vm_compute. lia.
  - exists h'. split; [exact Hback | exact Hgrad].
Defined.

(** ** Accumulation *)

(** C4. Contributions are summed: with [b = a + a] the two unit
    contributions of the one rule both land on [a], whose gradient is 2
    after [b.backward()], whatever the value of the leaf (3 in the
    specification's example); and a node with two consumers,
    [a = 3; c = a.relu(); d = a + c], collects one unit from each. *)
Theorem gradient_accumulates :
  (∀ v : Qc,
     ∃ h, run (let* a := leaf v in
               let* b := __add__ a (PyScalar a) in
               let* _ := backward b in
               ret (a, b)) = Ok (0%nat, 1%nat) h
       ∧ grad_at h 0 = Some 2)
  ∧ (∃ h, run (let* a := leaf (Qc_of_Z 3) in
               let* b := __add__ a (PyScalar a) in
               let* _ := backward b in
               ret (a, b)) = Ok (0%nat, 1%nat) h
       ∧ data_at h 0 = Some (Qc_of_Z 3)
       ∧ grad_at h 0 = Some (Qc_of_Z 2))
  ∧ (∃ h, run (let* a := leaf (Qc_of_Z 3) in
               let* c := relu a in
               let* d := __add__ a (PyScalar c) in
               let* _ := backward d in
               ret (a, d)) = Ok (0%nat, 2%nat) h
       ∧ grad_at h 0 = Some (Qc_of_Z 2)).
Proof.
  split; [|split].
  - intros v. eexists. split; [vm_compute; reflexivity|].
    apply (f_equal Some). apply Qc_is_canon. reflexivity.
  - eexists. split; [vm_compute; reflexivity|]. split; compute_done.
  - eexists. split; [vm_compute; reflexivity|]. compute_done.
Qed.

(** ** The reflected operators *)

Lemma lookup_snoc_length (h : heap) (nd : Scalar) :
  (h ++ [nd]) !! length h = Some nd.
Proof. by apply list_lookup_middle. Qed.

Lemma data_at_snoc_old (h : heap) (nd : Scalar) (r : ref) (x : Qc) :
  data_at h r = Some x → data_at (h ++ [nd]) r = Some x.
Proof. apply evolves_data, evolves_app. Qed.

Lemma length_snoc (h : heap) (nd : Scalar) : length (h ++ [nd]) = S (length h).
Proof. rewrite length_app. simpl. lia. Qed.

(** A method called with a float: the leaf is allocated, and the method
    runs on with it as a Scalar operand. *)
Lemma method_float (op : binop) (a : ref) (r : Qc) (h : heap) :
  method op a (PyFloat r) h
  = method op a (PyScalar (length h)) (h ++ [lifted r]).
Proof. by destruct op. Qed.

(** The claim C5 as it is written fails for a raw scalar that is an int:
    the guard is [isinstance(other, float)], so the int is not lifted, and
    [2 - x] and [2 / x] build no node; the interpreter raises
    [TypeError]. *)
Lemma reflected_int_not_lifted :
  data_at [lifted 1] 0 = Some 1
  ∧ __rsub__ 0 (PyInt 2) [lifted 1] = Raise TypeError [lifted 1]
  ∧ __rtruediv__ 0 (PyInt 2) [lifted 1] = Raise TypeError [lifted 1]
  ∧ ¬ (∃ out h', __rsub__ 0 (PyInt 2) [lifted 1] = Ok out h')
  ∧ ¬ (∃ out h', __rtruediv__ 0 (PyInt 2) [lifted 1] = Ok out h').
Proof.
  split; [reflexivity|]. split; [reflexivity|]. split; [reflexivity|].
  split; intros (out & h' & H); discriminate H.
Qed.

(** C5, amended. For a node [x] holding [v] and a raw float [r], [r - x]
    lifts [r] to a leaf and returns a node of value [r - v], not [v - r],
    whose rule adds [g] to the leaf and [-g] to [x]; and [r / x] lifts [r]
    to a leaf and, when [v] is not 0, returns a node of value [r / v], not
    [v / r]; when [v] is 0 it raises [ZeroDivisionError]. For a raw int
    [n], [n - x] and [n / x] raise [TypeError] and leave the heap as it
    was: nothing is lifted and no node is built. *)
Theorem reflected_operations (h : heap) (x : ref) (v r : Qc) :
  data_at h x = Some v →
  (∃ h', __rsub__ x (PyFloat r) h = Ok (S (length h)) h'
     ∧ (∀ i, (i < length h)%nat → h' !! i = h !! i)
     ∧ h' !! length h = Some (lifted r)
     ∧ data_at h' (S (length h)) = Some (r - v)
     ∧ prev_at h' (S (length h)) = Some {[length h; x]}
     ∧ ∀ h2 g, evolves h' h2 → grad_at h2 (S (length h)) = Some g →
         call_backward (S (length h)) h2
         = Ok tt (add_grad x (- g) (add_grad (length h) g h2)))
  ∧ (v ≠ 0 →
     ∃ h', __rtruediv__ x (PyFloat r) h = Ok (S (length h)) h'
       ∧ (∀ i, (i < length h)%nat → h' !! i = h !! i)
       ∧ h' !! length h = Some (lifted r)
       ∧ data_at h' (S (length h)) = Some (r / v)
       ∧ prev_at h' (S (length h)) = Some {[length h; x]})
  ∧ (v = 0 →
     __rtruediv__ x (PyFloat r) h = Raise ZeroDivisionError (h ++ [lifted r]))
  ∧ (∀ n, __rsub__ x (PyInt n) h = Raise TypeError h
          ∧ __rtruediv__ x (PyInt n) h = Raise TypeError h).
Proof.
  intros Hx. pose proof (at_lt _ _ _ _ Hx) as Hlx.
  assert (Hr : data_at (h ++ [lifted r]) (length h) = Some r).
  { unfold data_at. by rewrite lookup_snoc_length. }
  pose proof (data_at_snoc_old h (lifted r) x v Hx) as Hx'.
  split; [|split; [|split; [|done]]].
  - destruct (method_contract Sub _ _ _ _ _ Hr Hx')
      as (h' & Hrun & Hlen & Hold & Hdata & Hprev & Hrule); [done|].
    rewrite length_snoc in *. exists h'.
    split; [exact Hrun|].
    split. { intros i Hi. rewrite Hold by lia. by apply lookup_app_l. }
    split. { rewrite Hold by lia. apply lookup_snoc_length. }
    split; [exact Hdata|]. split; [exact Hprev|]. exact Hrule.
  - intros Hv.
    destruct (method_contract Div _ _ _ _ _ Hr Hx')
      as (h' & Hrun & Hlen & Hold & Hdata & Hprev & _); [done|].
    rewrite length_snoc in *. exists h'.
    split; [exact Hrun|].
    split. { intros i Hi. rewrite Hold by lia. by apply lookup_app_l. }
    split. { rewrite Hold by lia. apply lookup_snoc_length. }
    split; [exact Hdata | exact Hprev].
  - intros ->.
    change (__rtruediv__ x (PyFloat r) h)
      with (__truediv__ (length h) (PyScalar x) (h ++ [lifted r])).
    by eapply truediv_Scalar_zero.
Qed.

Lemma reflected_operations_witness :
  data_at [lifted (Qc_of_Z 4)] 0 = Some (Qc_of_Z 4)
  ∧ (∃ h', __rsub__ 0 (PyFloat 1) [lifted (Qc_of_Z 4)] = Ok 2%nat h'
       ∧ data_at h' 2 = Some (1 - Qc_of_Z 4))
  ∧ __rsub__ 0 (PyInt 1) [lifted (Qc_of_Z 4)]
    = Raise TypeError [lifted (Qc_of_Z 4)].
Proof.
  split; [reflexivity|].
  destruct (reflected_operations [lifted (Qc_of_Z 4)] 0 (Qc_of_Z 4) 1)
    as ((h' & Hrun & _ & _ & Hdata & _) & _ & _ & Hint).
  - reflexivity.
  - split; [|exact (proj1 (Hint 1%Z))].
    exists h'. split; [exact Hrun | exact Hdata].
Defined.

(** ** relu *)

Lemma relu_value (v : Qc) : (if decide (v < 0) then 0 else v) = Qc_max 0 v.
Proof.
  unfold Qc_max. destruct (decide (v < 0)) as [Hlt|Hge], (decide (0 ≤ v)) as [Hle|Hnle];
    try done.
  - by apply Qclt_not_le in Hlt.
  - apply Qcnot_lt_le in Hge. done.
Qed.

Lemma add_grad_zero (r : ref) (h : heap) : add_grad r 0 h = h.
Proof.
  unfold add_grad. apply list_alter_id. intros [d g c p o].
  unfold with_grad. simpl. by rewrite Qcplus_0_r.
Qed.

(** C6. For a node [x] holding [v], [relu(x)] returns a new node of value
    [max(0, v)] whose only operand is [x]; its rule adds [g] to the
    gradient of [x] when the output value is strictly positive and leaves
    the heap as it is otherwise, in particular at input 0. For -5 the
    output is 0 and the gradient of [x] after backward is 0; for 5 they
    are 5 and 1. *)
Theorem relu_contract :
  (∀ (h : heap) (x : ref) (v : Qc),
     data_at h x = Some v →
     ∃ h', relu x h = Ok (length h) h'
       ∧ length h' = S (length h)
       ∧ (∀ i, (i < length h)%nat → h' !! i = h !! i)
       ∧ data_at h' (length h) = Some (Qc_max 0 v)
       ∧ prev_at h' (length h) = Some {[x]}
       ∧ ∀ h2 g, evolves h' h2 → grad_at h2 (length h) = Some g →
           call_backward (length h) h2
           = Ok tt (if decide (0 < Qc_max 0 v) then add_grad x g h2 else h2))
  ∧ (∃ h, run (relu_example (Qc_of_Z (-5))) = Ok (0%nat, 1%nat) h
       ∧ data_at h 1 = Some 0 ∧ grad_at h 0 = Some 0)
  ∧ (∃ h, run (relu_example (Qc_of_Z 5)) = Ok (0%nat, 1%nat) h
       ∧ data_at h 1 = Some (Qc_of_Z 5) ∧ grad_at h 0 = Some 1)
  ∧ (∃ h, run (relu_example 0) = Ok (0%nat, 1%nat) h
       ∧ data_at h 1 = Some 0 ∧ grad_at h 0 = Some 0).
Proof.
  split; [|split; [|split]].
  - intros h x v Hx. pose proof (at_lt _ _ _ _ Hx) as Hlx.
    eexists. split; [by apply relu_Scalar|].
    split; [apply length_snoc|].
    split; [intros i Hi; by apply lookup_app_l|].
    split. { unfold data_at. rewrite lookup_snoc_length. simpl. by rewrite relu_value. }
    split.
    { unfold prev_at. rewrite lookup_snoc_length. simpl.
      by rewrite (right_id_L ∅ (∪)). }
    intros h2 g He Hg.
    rewrite (call_backward_at h2 (length h) (BwRelu x (length h))); cycle 1.
    { eapply evolves_backward; [exact He|].
      unfold backward_at. by rewrite lookup_snoc_length. }
    pose proof (evolves_length _ _ He) as Hlen. rewrite length_snoc in Hlen.
    erewrite run_BwRelu; [| lia | | exact Hg]; cycle 1.
    { eapply evolves_data; [exact He|]. unfold data_at.
      by rewrite lookup_snoc_length. }
    simpl. rewrite relu_value. f_equal.
    destruct (decide (0 < Qc_max 0 v)).
    + by rewrite Qcmult_1_l.
    + by rewrite Qcmult_0_l, add_grad_zero.
  - eexists. split; [vm_compute; reflexivity|]. split; compute_done.
  - eexists. split; [vm_compute; reflexivity|]. split; compute_done.
  - eexists. split; [vm_compute; reflexivity|]. split; compute_done.
Qed.

Lemma relu_contract_witness :
  data_at [lifted (Qc_of_Z 5)] 0 = Some (Qc_of_Z 5)
  ∧ ∃ h', relu 0 [lifted (Qc_of_Z 5)] = Ok 1%nat h'
      ∧ data_at h' 1 = Some (Qc_max 0 (Qc_of_Z 5)).
Proof.
  split; [reflexivity|].
  destruct (proj1 relu_contract [lifted (Qc_of_Z 5)] 0%nat (Qc_of_Z 5))
    as (h' & Hrun & _ & _ & Hdata & _).
  - reflexivity.
  - exists h'. split; [exact Hrun | exact Hdata].
Defined.

(** ** Errors *)

(** C7. A division whose divisor holds 0 raises [ZeroDivisionError]; it
    returns no node. That holds for a Scalar divisor, for the lifted float
    0, for the reflected form, and for the rule of a division node whose
    divisor holds 0, which raises at its first statement and leaves the
    gradients as they are. (The class itself never builds such a node:
    the forward division has raised.) *)
Theorem division_by_zero_raises (h : heap) (a b : ref) (x : Qc) :
  data_at h a = Some x → data_at h b = Some 0 →
  __truediv__ a (PyScalar b) h = Raise ZeroDivisionError h
  ∧ __truediv__ a (PyFloat 0) h = Raise ZeroDivisionError (h ++ [lifted 0])
  ∧ __rtruediv__ b (PyFloat x) h = Raise ZeroDivisionError (h ++ [lifted x])
  ∧ ∀ o, backward_at h o = Some (BwDiv a b o) →
      call_backward o h = Raise ZeroDivisionError h.
Proof.
  intros Ha Hb. split; [by eapply truediv_Scalar_zero|].
  split.
  { change (__truediv__ a (PyFloat 0) h) with (method Div a (PyFloat 0) h).
    rewrite method_float. simpl.
    eapply truediv_Scalar_zero; [by apply data_at_snoc_old| |done].
    unfold data_at. by rewrite lookup_snoc_length. }
  split.
  { change (__rtruediv__ b (PyFloat x) h)
      with (__truediv__ (length h) (PyScalar b) (h ++ [lifted x])).
    eapply truediv_Scalar_zero; [|by apply data_at_snoc_old|done].
    unfold data_at. by rewrite lookup_snoc_length. }
  intros o Ho. rewrite (call_backward_at h o _ Ho).
  assert (∃ g, grad_at h o = Some g) as [g Hg].
  { unfold backward_at, grad_at in *. destruct (h !! o); naive_solver. }
  by eapply run_BwDiv_zero.
Qed.

Lemma division_by_zero_raises_witness :
  data_at [lifted 1; lifted 0; mkScalar 0 1 (BwDiv 0 1 2) {[0%nat; 1%nat]} "/"] 1
  = Some 0
  ∧ __truediv__ 0 (PyScalar 1)
      [lifted 1; lifted 0; mkScalar 0 1 (BwDiv 0 1 2) {[0%nat; 1%nat]} "/"]
    = Raise ZeroDivisionError
        [lifted 1; lifted 0; mkScalar 0 1 (BwDiv 0 1 2) {[0%nat; 1%nat]} "/"]
  ∧ call_backward 2
      [lifted 1; lifted 0; mkScalar 0 1 (BwDiv 0 1 2) {[0%nat; 1%nat]} "/"]
    = Raise ZeroDivisionError
        [lifted 1; lifted 0; mkScalar 0 1 (BwDiv 0 1 2) {[0%nat; 1%nat]} "/"].
Proof.
  split; [reflexivity|].
  destruct (division_by_zero_raises
              [lifted 1; lifted 0; mkScalar 0 1 (BwDiv 0 1 2) {[0%nat; 1%nat]} "/"]
              0 1 1)
    as (Hfwd & _ & _ & Hbwd).
  - reflexivity.
  - reflexivity.
  - split; [exact Hfwd|]. apply Hbwd. reflexivity.
Defined.

(** The claim C8 as it is written fails: an int operand is not lifted. The
    guard is [isinstance(other, float)], which an int does not pass;
    [_other] is then the int itself, and reading [_other.data] raises. *)
Lemma int_operand_not_lifted :
  method Add 0 (PyInt 2) [lifted 1] = Raise AttributeError [lifted 1]
  ∧ ¬ ∃ out h', method Add 0 (PyInt 2) [lifted 1] = Ok out h'.
Proof. split; [reflexivity|]. intros (out & h' & H). discriminate H. Qed.

Lemma method_not_Scalar (op : binop) (h : heap) (a : ref) (x : Qc) (other : pyval) :
  data_at h a = Some x →
  (∀ r, other ≠ PyFloat r) → (∀ b, other ≠ PyScalar b) →
  method op a other h = Raise AttributeError h.
Proof.
  intros Ha Hf Hs. destruct other as [b|r|n|]; [by destruct (Hs b)|by destruct (Hf r)| |];
    destruct op; simpl;
    unfold __add__, __sub__, __mul__, __truediv__, lift; by do 2 step.
Qed.

(** C8, amended. A raw float operand is lifted to a leaf at the entry of
    the operator, before the result is built; an operand that is neither a
    float nor a Scalar (an int among them) is not lifted: the call raises
    [AttributeError] when it reads [_other.data], before any node is built,
    so the heap is as it was. The reflected subtract and divide raise
    [TypeError] for an int. *)
Theorem operand_lifting (op : binop) (h : heap) (a : ref) (x : Qc) :
  data_at h a = Some x →
  (∀ r, (op = Div → r ≠ 0) →
     ∃ h', method op a (PyFloat r) h = Ok (S (length h)) h'
       ∧ (∀ i, (i < length h)%nat → h' !! i = h !! i)
       ∧ h' !! length h = Some (lifted r)
       ∧ data_at h' (S (length h)) = Some (forward_value op x r)
       ∧ prev_at h' (S (length h)) = Some {[a; length h]})
  ∧ (∀ other, (∀ r, other ≠ PyFloat r) → (∀ b, other ≠ PyScalar b) →
       method op a other h = Raise AttributeError h)
  ∧ (∀ n, __rsub__ a (PyInt n) h = Raise TypeError h
          ∧ __rtruediv__ a (PyInt n) h = Raise TypeError h).
Proof.
  intros Ha. split; [|split].
  - intros r Hr. rewrite method_float.
    assert (Hdr : data_at (h ++ [lifted r]) (length h) = Some r).
    { unfold data_at. by rewrite lookup_snoc_length. }
    pose proof (data_at_snoc_old h (lifted r) a x Ha) as Ha'.
    destruct (method_contract op _ _ _ _ _ Ha' Hdr Hr)
      as (h' & Hrun & Hlen & Hold & Hdata & Hprev & _).
    rewrite length_snoc in *. exists h'. split; [exact Hrun|].
    split. { intros i Hi. rewrite Hold by lia. by apply lookup_app_l. }
    split. { rewrite Hold by lia. apply lookup_snoc_length. }
    split; [exact Hdata | exact Hprev].
  - intros other. by apply (method_not_Scalar op h a x).
  - done.
Qed.

Lemma operand_lifting_witness :
  data_at [lifted 1] 0 = Some 1
  ∧ (∃ h', method Mul 0 (PyFloat (Qc_of_Z 3)) [lifted 1] = Ok 2%nat h'
       ∧ h' !! 1%nat = Some (lifted (Qc_of_Z 3)))
  ∧ method Mul 0 (PyInt 3) [lifted 1] = Raise AttributeError [lifted 1].
Proof.
  split; [reflexivity|].
  destruct (operand_lifting Mul [lifted 1] 0 1) as (Hfloat & Hother & _).
  - reflexivity.
  - split.
    + destruct (Hfloat (Qc_of_Z 3)) as (h' & Hrun & _ & Hleaf & _).
      * intros H. discriminate H.
      * exists h'. split; [exact Hrun | exact Hleaf].
    + apply Hother; intros ? H; discriminate H.
Defined.

(** ** What a call can change *)

Global Instance evolves_preorder : PreOrder evolves.
Proof. split; [exact evolves_refl | exact evolves_trans]. Qed.

Global Instance grads_only_preorder : PreOrder grads_only.
Proof. split; [exact grads_only_refl | exact grads_only_trans]. Qed.

Section respects.
Context (R : relation heap) `{!PreOrder R}.

Lemma respects_ret {A} (a : A) : respects R (ret a).
Proof. intros h h' [= <-]. reflexivity. Qed.

Lemma respects_raise {A} (e : exn) : respects R (@raise A e).
Proof. intros h h' [= <-]. reflexivity. Qed.

Lemma respects_read {A} (f : Scalar → A) (r : ref) : respects R (read f r).
Proof.
  intros h h'. unfold read. destruct (h !! r); [|done].
  intros [= <-]. reflexivity.
Qed.

Lemma respects_py_div (x y : Qc) : respects R (py_div x y).
Proof.
  unfold py_div. destruct (decide (y = 0));
    [apply respects_raise | apply respects_ret].
Qed.

Lemma respects_scalar_of (v : pyval) : respects R (scalar_of v).
Proof. destruct v; try apply respects_raise. apply respects_ret. Qed.

Lemma respects_bind {A B} (m : M A) (k : A → M B) :
  respects R m → (∀ a, respects R (k a)) → respects R (bind m k).
Proof.
  intros Hm Hk h h'. unfold bind.
  destruct (m h) as [a h1|e h1|] eqn:E.
  - intros Hfin. transitivity h1; [apply Hm; by rewrite E | by eapply Hk].
  - intros [= <-]. apply Hm. by rewrite E.
  - done.
Qed.

Lemma respects_for_each {A} (body : A → M unit) (xs : list A) :
  (∀ x, respects R (body x)) → respects R (for_each xs body).
Proof.
  intros Hbody. induction xs as [|x xs IH]; [apply respects_ret|].
  apply respects_bind; [apply Hbody | intros _; apply IH].
Qed.
End respects.

Lemma respects_init (d : Qc) (cs : list ref) (op : string) :
  respects evolves (__init__ d cs op).
Proof. intros h h' [= <-]. apply evolves_app. Qed.

Lemma respects_init_attach d cs op (c : ref → closure) :
  respects evolves
    (let* out := __init__ d cs op in
     let* _ := write (with_backward (c out)) out in
     ret out).
Proof. intros h h'. rewrite init_attach. intros [= <-]. apply evolves_app. Qed.

Lemma respects_lift (other : pyval) : respects evolves (lift other).
Proof.
  destruct other; try apply (respects_ret _).
  apply (respects_bind _); [apply respects_init | intros r; apply (respects_ret _)].
Qed.

Lemma respects_method (op : binop) (self : ref) (other : pyval) :
  respects evolves (method op self other).
Proof.
  destruct op; simpl; unfold __add__, __sub__, __mul__, __truediv__;
    (apply (respects_bind _); [apply respects_lift | intros _other]);
    (apply (respects_bind _); [apply (respects_read _) | intros x]);
    (apply (respects_bind _); [apply (respects_scalar_of _) | intros o]);
    (apply (respects_bind _); [apply (respects_read _) | intros y]).
  - apply (respects_init_attach _ _ _ (BwAdd self o)).
  - apply (respects_init_attach _ _ _ (BwSub self o)).
  - apply (respects_init_attach _ _ _ (BwMul self o)).
  - apply (respects_bind _); [apply (respects_py_div _) | intros q].
    apply (respects_init_attach _ _ _ (BwDiv self o)).
Qed.

Lemma respects_reflected (op : binop) (self : ref) (other : pyval) :
  respects evolves (reflected op self other).
Proof.
  destruct op; simpl; unfold __radd__, __rmul__, __rsub__, __rtruediv__.
  - apply (respects_method Add).
  - apply (respects_bind _); [apply respects_lift | intros [o| | |]];
      try apply (respects_raise _). apply (respects_method Sub).
  - apply (respects_method Mul).
  - apply (respects_bind _); [apply respects_lift | intros [o| | |]];
      try apply (respects_raise _). apply (respects_method Div).
Qed.

Lemma respects_relu (self : ref) : respects evolves (relu self).
Proof.
  unfold relu. apply (respects_bind _); [apply (respects_read _) | intros x].
  apply (respects_init_attach _ _ _ (BwRelu self)).
Qed.

Lemma respects_write_grad (g : Qc) (r : ref) :
  respects grads_only (write (with_grad g) r).
Proof.
  intros h h'. unfold write. destruct (h !! r) as [nd|] eqn:E; [|done].
  intros [= <-]. by apply grads_only_write_grad.
Qed.

Lemma respects_grad_iadd (r : ref) (v : Qc) : respects grads_only (grad_iadd r v).
Proof.
  apply (respects_bind _); [apply (respects_read _) | intros g].
  apply respects_write_grad.
Qed.

Lemma respects_grad_isub (r : ref) (v : Qc) : respects grads_only (grad_isub r v).
Proof.
  apply (respects_bind _); [apply (respects_read _) | intros g].
  apply respects_write_grad.
Qed.

Lemma respects_run_closure (c : closure) : respects grads_only (run_closure c).
Proof.
  destruct c; simpl;
    repeat first
      [ apply (respects_ret _) | apply (respects_read _)
      | apply (respects_py_div _)
      | apply respects_grad_iadd | apply respects_grad_isub
      | (apply (respects_bind _); [|intros ?]) ].
Qed.

Lemma respects_call_backward (node : ref) :
  respects grads_only (call_backward node).
Proof.
  apply (respects_bind _); [apply (respects_read _) | intros c].
  apply respects_run_closure.
Qed.

Lemma respects_backward (self : ref) : respects grads_only (backward self).
Proof.
  intros h h'. unfold backward. destruct (topo_of h self) as [topo|]; [|done].
  apply (respects_bind _); [apply respects_write_grad | intros _].
  apply (respects_for_each _), respects_call_backward.
Qed.

Lemma exec_evolves (c : call) (h h' : heap) : exec c h = Some h' → evolves h h'.
Proof.
  destruct c; unfold exec.
  - apply (respects_init x [] "").
  - apply respects_method.
  - apply respects_reflected.
  - apply respects_relu.
  - intros H. by apply respects_backward in H as [_ ?].
Qed.

(** C9. No call changes the value of an object that exists: after a
    constructor call, any of the four operators, their reflected forms,
    [relu] or [backward], whether the call returned or raised, every object
    of the heap before is still there with the same value. Indeed all its
    fields but the gradient are the same; and [backward] allocates
    nothing, so gradient fields are all it writes. *)
Theorem value_immutable (c : call) (h h' : heap) :
  exec c h = Some h' →
  (∀ r x, data_at h r = Some x → data_at h' r = Some x)
  ∧ (∀ r nd, h !! r = Some nd → ∃ g, h' !! r = Some (with_grad g nd))
  ∧ (∀ t, c = CallBackward t → length h' = length h).
Proof.
  intros Hexec. pose proof (exec_evolves c h h' Hexec) as He.
  split; [intros r x; by apply evolves_data|]. split; [exact He|].
  intros t ->. simpl in Hexec. by apply respects_backward in Hexec as [? _].
Qed.

Lemma value_immutable_witness :
  exec (CallBackward 3) example_heap
  = Some (default [] (exec (CallBackward 3) example_heap))
  ∧ data_at example_heap 2 = Some (Qc_of_Z 18)
  ∧ data_at (default [] (exec (CallBackward 3) example_heap)) 2
    = Some (Qc_of_Z 18).
Proof.
  assert (Hexec : exec (CallBackward 3) example_heap
                  = Some (default [] (exec (CallBackward 3) example_heap)))
    by (vm_compute; reflexivity).
  assert (Hdata : data_at example_heap 2 = Some (Qc_of_Z 18)) by compute_done.
  split; [exact Hexec|]. split; [exact Hdata|].
  exact (proj1 (value_immutable _ _ _ Hexec) 2%nat (Qc_of_Z 18) Hdata).
Defined.

(** ** Two passes *)

Lemma grads_only_sym h h' : grads_only h h' → grads_only h' h.
Proof.
  intros Hg. split; [symmetry; apply Hg|]. intros i nd' Hi.
  destruct (grads_only_lookup _ _ _ _ Hg Hi) as (nd & g & Hnd & ->).
  exists (grad nd). rewrite Hnd. by destruct nd.
Qed.

Lemma grads_only_reachable h h' t x :
  grads_only h h' → reachable h' t x → reachable h t x.
Proof.
  intros Hg. induction 1 as [|c o _ IH Hop]; [constructor|].
  eapply reach_step; [exact IH|]. by apply (grads_only_operand _ _ _ _ Hg).
Qed.

(** One pass, seen from a node [l] that no reachable node but [t] has as
    an operand: its gradient receives what the rule of [t] contributes,
    with the gradient of [t] at 1, and nothing else. *)
Lemma backward_decomposed (h : heap) (t : ref) :
  wf h → (t < length h)%nat →
  ∃ nd h', h !! t = Some nd ∧ backward t h = Ok tt h' ∧ grads_only h h'
    ∧ grad_at h' t = Some 1
    ∧ ∀ l, l ≠ t → (∀ c, reachable h t c → operand h l c → c = t) →
        grad_at h' l
        = (λ g, g + delta (contributions (<[t := with_grad 1 nd]> h) t) l)
            <$> grad_at h l.
Proof.
  intros Hwf Ht.
  destruct (backward_ok h t Hwf Ht)
    as (topo & nd & h' & Htopo & Hnd & Hloop & Hback & Hg & Hgrad).
  destruct (topo_of_spec h t Hwf Ht)
    as (topo' & Htopo' & [Hnodup _] & Hmem & Hlast).
  assert (topo' = topo) as -> by congruence.
  exists nd, h'. split; [done|]. split; [done|]. split; [done|].
  split; [unfold grad_at; by rewrite Hgrad|].
  intros l Hlt Honly.
  apply last_Some in Hlast as [T ->]. rewrite reverse_snoc in Hloop.
  pose proof (grads_only_write_grad h t 1 nd Hnd) as Hg0.
  set (h0 := <[t := with_grad 1 nd]> h) in *.
  assert (Hwf0 : wf h0) by (by eapply wf_grads_only).
  assert (Ht0 : (t < length h0)%nat) by (by rewrite (proj1 Hg0)).
  simpl in Hloop.
  rewrite (bind_Ok _ _ _ _ _ (call_backward_contributions h0 t Hwf0 Ht0)) in Hloop.
  pose proof (grads_only_add_grads (contributions h0 t) h0) as Hg1.
  set (h1 := add_grads (contributions h0 t) h0) in *.
  destruct (for_each_call_backward_ok (reverse T) h1)
    as (h'' & Hrun & _ & Hframe).
  { by eapply wf_grads_only. }
  { intros x Hx. rewrite elem_of_reverse in Hx.
    rewrite (proj1 Hg1), (proj1 Hg0).
    assert (reachable h t x) as Hr by (apply Hmem, elem_of_app; by left).
    apply (wf_reachable_le _ _ _ Hwf) in Hr. lia. }
  assert (h'' = h') as -> by congruence.
  unfold grad_at at 1. rewrite Hframe.
  - fold (grad_at h1 l). unfold h1. rewrite grad_at_add_grads.
    unfold grad_at, h0. by rewrite list_lookup_insert_ne.
  - intros x Hx Hop. rewrite elem_of_reverse in Hx.
    apply (grads_only_operand _ _ _ _ Hg1) in Hop.
    apply (grads_only_operand _ _ _ _ Hg0) in Hop.
    assert (x = t) as ->.
    { apply Honly; [|done]. apply Hmem, elem_of_app. by left. }
    apply NoDup_app in Hnodup as (_ & Hdisj & _).
    apply (Hdisj t Hx). by left.
Qed.

(** The claim C2 as it is written fails on a chain of depth two: the leaf
    [a] of [chain_graph] has gradient 3 after one pass and 9, not 6, after
    two. The second pass starts from the stale gradient 1 of [m], which
    the rule of [t] raises to 2 before the rule of [m] reads it. *)
Lemma backward_twice_not_double :
  ∃ h1 h2,
    prev_at chain_heap 0 = Some ∅
    ∧ Forall (λ nd, grad nd = 0) chain_heap
    ∧ backward 4 chain_heap = Ok tt h1 ∧ backward 4 h1 = Ok tt h2
    ∧ grad_at h1 0 = Some (Qc_of_Z 3)
    ∧ grad_at h2 0 = Some (Qc_of_Z 9)
    ∧ grad_at h2 0 ≠ Some (2 * Qc_of_Z 3).
Proof.
  eexists _, _. split; [reflexivity|]. split; [compute_done|].
  split; [vm_compute; reflexivity|]. split; [vm_compute; reflexivity|].
  split; [compute_done|]. split; compute_done.
Qed.

(** C2, amended. On a graph built by the class, for a node [l] other
    than the terminal [t] whose gradient is 0 beforehand and whose only
    consumer among the nodes reachable from [t] is [t] itself (a leaf
    that [t] was computed from directly, for one), two calls
    [t.backward()] in succession both return and leave at [l] exactly
    double the gradient that one call leaves. *)
Theorem backward_twice (h : heap) (t l : ref) :
  wf h → (t < length h)%nat → l ≠ t → grad_at h l = Some 0 →
  (∀ c, reachable h t c → operand h l c → c = t) →
  ∃ h1 h2 g, backward t h = Ok tt h1 ∧ backward t h1 = Ok tt h2
    ∧ grad_at h1 l = Some g ∧ grad_at h2 l = Some (2 * g).
Proof.
  intros Hwf Ht Hlt Hzero Honly.
  destruct (backward_decomposed h t Hwf Ht)
    as (nd & h1 & Hnd & Hback1 & Hg1 & Hseed1 & Hl1).
  assert (Hwf1 : wf h1) by (by eapply wf_grads_only).
  assert (Ht1 : (t < length h1)%nat) by (by rewrite (proj1 Hg1)).
  destruct (backward_decomposed h1 t Hwf1 Ht1)
    as (nd1 & h2 & Hnd1 & Hback2 & Hg2 & Hseed2 & Hl2).
  specialize (Hl1 l Hlt Honly). rewrite Hzero in Hl1. simpl in Hl1.
  assert (Honly1 : ∀ c, reachable h1 t c → operand h1 l c → c = t).
  { intros c Hc Hop. apply Honly.
    - by eapply grads_only_reachable.
    - by apply (grads_only_operand _ _ _ _ Hg1). }
  specialize (Hl2 l Hlt Honly1). rewrite Hl1 in Hl2. simpl in Hl2.
  pose proof (grads_only_write_grad h t 1 nd Hnd) as Ha.
  pose proof (grads_only_write_grad h1 t 1 nd1 Hnd1) as Hb.
  rewrite (contributions_grads_only (<[t := with_grad 1 nd]> h)
             (<[t := with_grad 1 nd1]> h1) t) in Hl2.
  - eexists h1, h2, _. split; [done|]. split; [done|]. split; [done|].
    rewrite Hl2. f_equal. ring.
  - eapply grads_only_trans; [apply grads_only_sym, Ha|].
    eapply grads_only_trans; [exact Hg1 | exact Hb].
  - unfold grad_at. rewrite !list_lookup_insert_eq; [done | lia | lia].
Qed.

Lemma backward_twice_witness :
  wf chain_heap ∧ grad_at chain_heap 3 = Some 0
  ∧ ∃ h1 h2 g, backward 4 chain_heap = Ok tt h1 ∧ backward 4 h1 = Ok tt h2
      ∧ grad_at h1 3 = Some g ∧ grad_at h2 3 = Some (2 * g).
Proof.
  assert (Hwf : wf chain_heap) by compute_done.
  split; [exact Hwf|]. split; [compute_done|].
  apply (backward_twice chain_heap 4 3 Hwf).
  - vm_compute. lia.
  - lia.
  - compute_done.
  - intros c Hc (nd & Hnd & Hin).
    assert (c < 5)%nat as Hlt by (apply lookup_lt_Some in Hnd; exact Hnd).
    destruct c as [|[|[|[|[|c]]]]]; [| | | |reflexivity|lia];
      vm_compute in Hnd; injection Hnd as <-; exfalso; revert Hin;
      apply (bool_decide_unpack _); vm_compute; exact I.
Defined.

(** ** The invariant holds of every heap the class builds *)

Lemma closure_ok_snoc (h : heap) (nd' : Scalar) (i : ref) (nd : Scalar) :
  closure_ok h i nd → closure_ok (h ++ [nd']) i nd.
Proof.
  unfold closure_ok. destruct (_backward nd); try done.
  intros (? & ? & ? & Hy). split_and!; try done.
  destruct (data_at h other) as [y|] eqn:E; [|done].
  by rewrite (data_at_snoc_old _ _ _ _ E).
Qed.

Lemma wf_snoc (h : heap) (nd : Scalar) :
  wf h → node_ok (h ++ [nd]) (length h) nd → wf (h ++ [nd]).
Proof.
  intros Hwf Hnd i nd' Hi.
  apply lookup_snoc_Some in Hi as [[Hlt Hi]|[-> <-]]; [|done].
  destruct (Hwf i nd' Hi) as [Hprev Hc].
  split; [done | by apply closure_ok_snoc].
Qed.

Lemma wf_leaf (h : heap) (x : Qc) : wf h → wf (h ++ [lifted x]).
Proof.
  intros Hwf. apply wf_snoc; [done|]. split; [|done].
  intros c Hc. by apply not_elem_of_empty in Hc.
Qed.

Lemma lt_data_at (h : heap) (r : ref) :
  (r < length h)%nat → ∃ x, data_at h r = Some x.
Proof.
  intros Hr. destruct (lookup_lt_is_Some_2 h r Hr) as [nd Hnd].
  exists (data nd). unfold data_at. by rewrite Hnd.
Qed.

Lemma wf_method_Scalar (op : binop) (h h' : heap) (a b : ref) :
  wf h → (a < length h)%nat → (b < length h)%nat →
  final_heap (method op a (PyScalar b) h) = Some h' → wf h'.
Proof.
  intros Hwf Ha Hb.
  destruct (lt_data_at h a Ha) as [x Hx], (lt_data_at h b Hb) as [y Hy].
  destruct (decide (op = Div ∧ y = 0)) as [[-> ->]|Hnz].
  { simpl. rewrite (truediv_Scalar_zero h a b x 0 Hx Hy eq_refl).
    by intros [= <-]. }
  assert (Hy0 : op = Div → y ≠ 0) by (intros ? ?; by apply Hnz).
  rewrite (method_spec op h a b x y Hx Hy Hy0). intros [= <-].
  apply wf_snoc; [done|]. split.
  - intros c Hc. cbn [_prev list_to_set foldr] in Hc.
    repeat (apply elem_of_union in Hc as [Hc|Hc];
            [apply elem_of_singleton in Hc as ->; done|]).
    by apply not_elem_of_empty in Hc.
  - unfold closure_ok.
    assert (a ∈ (list_to_set [a; b] : gset ref)) by (rewrite elem_of_list_to_set; by left).
    assert (b ∈ (list_to_set [a; b] : gset ref))
      by (rewrite elem_of_list_to_set; right; by left).
    destruct op; simpl; split_and!; try done.
    rewrite (data_at_snoc_old _ _ _ _ Hy). by apply Hy0.
Qed.

Lemma wf_method (op : binop) (h h' : heap) (a : ref) (other : pyval) :
  wf h → (a < length h)%nat → pyval_valid h other →
  final_heap (method op a other h) = Some h' → wf h'.
Proof.
  intros Hwf Ha Hother. destruct (lt_data_at h a Ha) as [x Hx].
  destruct other as [b|r|n|].
  - by apply wf_method_Scalar.
  - rewrite method_float. apply wf_method_Scalar.
    + by apply wf_leaf.
    + rewrite length_snoc. lia.
    + rewrite length_snoc. lia.
  - rewrite (method_not_Scalar op h a x (PyInt n)) by done. by intros [= <-].
  - rewrite (method_not_Scalar op h a x PyOther) by done. by intros [= <-].
Qed.

Lemma wf_reflected (op : binop) (h h' : heap) (a : ref) (other : pyval) :
  wf h → (a < length h)%nat → pyval_valid h other →
  final_heap (reflected op a other h) = Some h' → wf h'.
Proof.
  intros Hwf Ha Hother.
  assert (Hswap : ∀ op', (∀ o, reflected op a (PyScalar o) = method op' o (PyScalar a)) →
    (∀ r h0, reflected op a (PyFloat r) h0
             = method op' (length h0) (PyScalar a) (h0 ++ [lifted r])) →
    (∀ n h0, reflected op a (PyInt n) h0 = Raise TypeError h0) →
    (∀ h0, reflected op a PyOther h0 = Raise AttributeError h0) →
    final_heap (reflected op a other h) = Some h' → wf h').
  { intros op' Hs Hf Hi Ho. destruct other as [o|r|n|].
    - rewrite Hs. by apply wf_method_Scalar.
    - rewrite Hf. apply wf_method_Scalar.
      + by apply wf_leaf.
      + rewrite length_snoc. lia.
      + rewrite length_snoc. lia.
    - rewrite Hi. by intros [= <-].
    - rewrite Ho. by intros [= <-]. }
  destruct op.
  - by apply (wf_method Add).
  - by apply (Hswap Sub).
  - by apply (wf_method Mul).
  - by apply (Hswap Div).
Qed.

Lemma wf_relu (h h' : heap) (a : ref) :
  wf h → (a < length h)%nat → final_heap (relu a h) = Some h' → wf h'.
Proof.
  intros Hwf Ha. destruct (lt_data_at h a Ha) as [x Hx].
  rewrite (relu_Scalar h a x Hx). intros [= <-].
  assert (a ∈ (list_to_set [a] : gset ref)) by (rewrite elem_of_list_to_set; by left).
  apply wf_snoc; [done|]. split; [|done].
  intros c Hc. cbn [_prev list_to_set foldr] in Hc.
  repeat (apply elem_of_union in Hc as [Hc|Hc];
          [apply elem_of_singleton in Hc as ->; done|]).
  by apply not_elem_of_empty in Hc.
Qed.

Lemma wf_exec (c : call) (h h' : heap) :
  wf h → call_valid h c → exec c h = Some h' → wf h'.
Proof.
  intros Hwf Hvalid. destruct c; simpl in Hvalid; unfold exec.
  - intros [= <-]. by apply wf_leaf.
  - destruct Hvalid. by apply wf_method.
  - destruct Hvalid. by apply wf_reflected.
  - by apply wf_relu.
  - intros H%respects_backward. by eapply wf_grads_only.
Qed.

Lemma wf_nil : wf [].
Proof. intros i nd Hi. by rewrite lookup_nil in Hi. Qed.

Lemma built_wf (h : heap) : built h → wf h.
Proof. induction 1; [apply wf_nil | by eapply wf_exec]. Qed.

(** ** Further properties: the graph of a built heap *)

Lemma example_heap_built : built example_heap.
Proof.
  pose proof (built_call [] (CallInit (Qc_of_Z 3)) _ built_nil I eq_refl) as H1.
  pose proof (built_call _ (CallMethod Add 0 (PyScalar 0)) _ H1
                (conj (Nat.lt_0_succ 0) (Nat.lt_0_succ 0)) eq_refl) as H2.
  pose proof (built_call _ (CallMethod Mul 1 (PyScalar 0)) _ H2
                (conj (Nat.lt_succ_diag_r 1) (Nat.lt_0_succ 1)) eq_refl) as H3.
  exact (built_call _ (CallRelu 2) _ H3 (Nat.lt_succ_diag_r 2) eq_refl).
Qed.

(** X1. In every heap built through the class an operand is an existing
    object, strictly older than its consumer, and the consumer cannot be
    reached from it: the operand graph has no dangling edge and no
    cycle. *)
Theorem built_graph_acyclic (h : heap) (o c : ref) :
  built h → operand h o c →
  (o < c)%nat ∧ (c < length h)%nat ∧ ¬ reachable h o c.
Proof.
  intros Hb Hop. pose proof (built_wf h Hb) as Hwf.
  pose proof (wf_operand_lt h o c Hwf Hop) as Hlt.
  split; [done|]. split.
  - destruct Hop as (nd & Hc & _). by eapply lookup_lt_Some.
  - intros Hr. apply (wf_reachable_le h o c Hwf) in Hr. lia.
Qed.

Lemma built_graph_acyclic_witness :
  built example_heap ∧ operand example_heap 0 1
  ∧ (0 < 1)%nat ∧ ¬ reachable example_heap 0 1.
Proof.
  assert (Hop : operand example_heap 0 1).
  { eexists. split; [reflexivity | compute_done]. }
  split; [exact example_heap_built|]. split; [exact Hop|].
  destruct (built_graph_acyclic example_heap 0 1 example_heap_built Hop)
    as (Hlt & _ & Hnr).
  split; [exact Hlt | exact Hnr].
Defined.

(** ** Further properties: what one pass changes *)

(** X3. [backward] on a node without operands sets its gradient to 1 and
    changes nothing else: the traversal finds the node alone, and its
    rule is [lambda: None]. *)
Theorem backward_leaf (h : heap) (t : ref) (nd : Scalar) :
  wf h → h !! t = Some nd → _prev nd = ∅ →
  backward t h = Ok tt (<[t := with_grad 1 nd]> h).
Proof.
  intros Hwf Hnd Hprev.
  assert (Hbw : _backward nd = BwNone).
  { destruct (Hwf t nd Hnd) as [_ Hc]. unfold closure_ok in Hc.
    rewrite Hprev in Hc.
    destruct (_backward nd); try done;
      destruct Hc as (_ & Ha & _) || destruct Hc as (_ & Ha);
      by apply not_elem_of_empty in Ha. }
  assert (Htopo : topo_of h t = Some [t]).
  { unfold topo_of. simpl. rewrite decide_False by apply not_elem_of_empty.
    rewrite Hnd. simpl. rewrite Hprev, elements_empty. done. }
  unfold backward. rewrite Htopo. unfold bind at 1, write. rewrite Hnd.
  change (reverse [t]) with [t]. cbn [for_each].
  rewrite (bind_Ok _ _ _ tt (<[t := with_grad 1 nd]> h)); [done|].
  rewrite (call_backward_at _ t BwNone); [done|].
  unfold backward_at.
  rewrite list_lookup_insert_eq by (by eapply lookup_lt_Some). simpl.
  by rewrite Hbw.
Qed.

Lemma backward_leaf_witness :
  wf [lifted (Qc_of_Z 5)]
  ∧ backward 0 [lifted (Qc_of_Z 5)] = Ok tt [with_grad 1 (lifted (Qc_of_Z 5))].
Proof.
  assert (Hwf : wf [lifted (Qc_of_Z 5)]) by compute_done.
  split; [exact Hwf|].
  exact (backward_leaf [lifted (Qc_of_Z 5)] 0 (lifted (Qc_of_Z 5))
           Hwf eq_refl eq_refl).
Defined.

(** X4. [backward(t)] leaves every object that is not reachable from [t]
    exactly as it was, its gradient included. *)
Theorem backward_frame (h : heap) (t : ref) :
  wf h → (t < length h)%nat →
  ∃ h', backward t h = Ok tt h'
    ∧ ∀ j, ¬ reachable h t j → h' !! j = h !! j.
Proof.
  intros Hwf Ht.
  destruct (backward_ok h t Hwf Ht)
    as (topo & nd & h' & Htopo & Hnd & Hloop & Hback & _ & _).
  destruct (topo_of_spec h t Hwf Ht) as (topo' & Htopo' & _ & Hmem & _).
  assert (topo' = topo) as -> by congruence.
  pose proof (grads_only_write_grad h t 1 nd Hnd) as Hg0.
  destruct (for_each_call_backward_ok (reverse topo) (<[t := with_grad 1 nd]> h))
    as (h'' & Hrun & _ & Hframe).
  { by eapply wf_grads_only. }
  { intros x Hx. rewrite elem_of_reverse in Hx. apply Hmem in Hx.
    rewrite length_insert. apply (wf_reachable_le _ _ _ Hwf) in Hx. lia. }
  assert (h'' = h') as -> by congruence.
  exists h'. split; [done|]. intros j Hj.
  rewrite Hframe.
  - apply list_lookup_insert_ne. intros ->. apply Hj. constructor.
  - intros x Hx Hop. rewrite elem_of_reverse in Hx. apply Hmem in Hx.
    apply (grads_only_operand _ _ _ _ Hg0) in Hop.
    apply Hj. by eapply reach_step.
Qed.

Lemma backward_frame_witness :
  wf example_heap
  ∧ ∃ h', backward 1 example_heap = Ok tt h'
      ∧ h' !! 3%nat = example_heap !! 3%nat.
Proof.
  assert (Hwf : wf example_heap) by compute_done.
  split; [exact Hwf|].
  destruct (backward_frame example_heap 1 Hwf) as (h' & Hback & Hframe).
  - vm_compute. lia.
  - exists h'. split; [exact Hback|]. apply Hframe.
    intros Hr. apply (wf_reachable_le _ _ _ Hwf) in Hr. lia.
Defined.

(** ** Further properties: one operation, then a pass *)

Lemma operand_snoc_old (h : heap) (nd : Scalar) (o c : ref) :
  (c < length h)%nat → operand (h ++ [nd]) o c ↔ operand h o c.
Proof.
  intros Hc. unfold operand. by rewrite lookup_app_l.
Qed.

Lemma operand_snoc_new (h : heap) (nd : Scalar) (o : ref) :
  operand (h ++ [nd]) o (length h) ↔ o ∈ _prev nd.
Proof.
  unfold operand. rewrite lookup_snoc_length. split.
  - by intros (nd' & [= <-] & Ho).
  - intros Ho. by exists nd.
Qed.

Lemma reachable_snoc_old (h : heap) (nd : Scalar) (c x : ref) :
  wf h → (c < length h)%nat → reachable (h ++ [nd]) c x → reachable h c x.
Proof.
  intros Hwf Hc. induction 1 as [|y o Hr IH Hop]; [constructor|].
  eapply reach_step; [exact IH|]. apply (operand_snoc_old h nd); [|done].
  apply (wf_reachable_le _ _ _ Hwf) in IH. lia.
Qed.

Lemma reachable_snoc_new (h : heap) (nd : Scalar) (x : ref) :
  wf h → set_Forall (λ o, (o < length h)%nat) (_prev nd) →
  reachable (h ++ [nd]) (length h) x →
  x = length h ∨ ∃ o, o ∈ _prev nd ∧ reachable h o x.
Proof.
  intros Hwf Hprev. induction 1 as [|y o Hr IH Hop]; [by left|]. right.
  destruct IH as [->|(o' & Ho' & Hr')].
  - apply operand_snoc_new in Hop. exists o. split; [done | constructor].
  - exists o'. split; [done|]. eapply reach_step; [exact Hr'|].
    apply (operand_snoc_old h nd); [|done].
    apply (wf_reachable_le _ _ _ Hwf) in Hr'.
    specialize (Hprev o' Ho'). simpl in Hprev. lia.
Qed.

(** A pass that starts at a node just allocated, seen from an older node
    [j] that is not reachable from an operand of the new node other than
    itself: [j] receives what the rule of the new node contributes. *)
Lemma fresh_node_backward (h : heap) (nd : Scalar) (j : ref) :
  wf h → wf (h ++ [nd]) → (j < length h)%nat →
  (∀ o, o ∈ _prev nd → reachable h o j → o = j) →
  ∃ h2, backward (length h) (h ++ [nd]) = Ok tt h2
    ∧ grad_at h2 j
      = (λ g, g + delta (contributions (h ++ [with_grad 1 nd]) (length h)) j)
          <$> grad_at h j.
Proof.
  intros Hwf Hwf1 Hj Hfar.
  destruct (backward_decomposed (h ++ [nd]) (length h) Hwf1)
    as (nd' & h2 & Hnd' & Hback & _ & _ & Hl); [rewrite length_snoc; lia|].
  rewrite lookup_snoc_length in Hnd'. injection Hnd' as <-.
  exists h2. split; [done|].
  rewrite Hl; [| lia |].
  - rewrite insert_app_r_alt, Nat.sub_diag by done. simpl.
    unfold grad_at. by rewrite lookup_app_l.
  - intros c Hc Hop.
    destruct (decide (c = length h)) as [|Hne]; [done|]. exfalso.
    assert (Hprev : set_Forall (λ o, (o < length h)%nat) (_prev nd)).
    { apply (Hwf1 (length h) nd). apply lookup_snoc_length. }
    assert (Hcl : (c < length h)%nat).
    { destruct Hop as (ndc & Hndc & _). apply lookup_lt_Some in Hndc.
      rewrite length_snoc in Hndc. lia. }
    apply operand_snoc_old in Hop; [|done].
    destruct (reachable_snoc_new h nd c Hwf Hprev Hc) as [|(o & Ho & Hr)]; [done|].
    assert (o = j) as -> by (apply Hfar; [done | by eapply reach_step]).
    apply (wf_reachable_le _ _ _ Hwf) in Hr.
    apply (wf_operand_lt _ _ _ Hwf) in Hop. lia.
Qed.

Lemma delta_pair (a b : ref) (c1 c2 : Qc) (j : ref) :
  delta [(a, c1); (b, c2)] j
  = (if decide (a = j) then c1 else 0) + (if decide (b = j) then c2 else 0).
Proof. unfold delta. simpl. by rewrite Qcplus_0_r. Qed.

Lemma table_one (op : binop) (x y : Qc) : table op 1 x y = partials op x y.
Proof. destruct op; simpl; by rewrite ?Qcmult_1_l. Qed.

Lemma contributions_fresh_binary (op : binop) (h : heap) (a b : ref)
    (x y v : Qc) (ps : gset ref) (tag : string) :
  data_at h a = Some x → data_at h b = Some y →
  contributions
    (h ++ [with_grad 1 (mkScalar v 0 (rule op a b (length h)) ps tag)])
    (length h)
  = [(a, (partials op x y).1); (b, (partials op x y).2)].
Proof.
  intros Ha Hb. unfold contributions. rewrite lookup_snoc_length.
  rewrite <- table_one.
  destruct op; simpl;
    by rewrite ?(data_at_snoc_old _ _ _ _ Ha), ?(data_at_snoc_old _ _ _ _ Hb).
Qed.

(** The operation, then the pass on its result, seen from an operand. *)
Lemma binary_then_backward (op : binop) (h : heap) (a b j : ref) (x y : Qc) :
  wf h → data_at h a = Some x → data_at h b = Some y → (op = Div → y ≠ 0) →
  (j < length h)%nat →
  (reachable h a j → a = j) → (reachable h b j → b = j) →
  ∃ h1 h2, method op a (PyScalar b) h = Ok (length h) h1
    ∧ backward (length h) h1 = Ok tt h2
    ∧ grad_at h2 j
      = (λ g, g + ((if decide (a = j) then (partials op x y).1 else 0)
                   + (if decide (b = j) then (partials op x y).2 else 0)))
          <$> grad_at h j.
Proof.
  intros Hwf Ha Hb Hy Hj Hfa Hfb.
  pose proof (method_spec op h a b x y Ha Hb Hy) as Hrun.
  set (nd := mkScalar (forward_value op x y) 0 (rule op a b (length h))
               (list_to_set [a; b])
               (match op with Add => "+" | Sub => "-" | Mul => "*" | Div => "/" end))
    in *.
  assert (Hwf1 : wf (h ++ [nd])).
  { apply (wf_method_Scalar op h _ a b Hwf); try by eapply at_lt.
    by rewrite Hrun. }
  destruct (fresh_node_backward h nd j Hwf Hwf1 Hj) as (h2 & Hback & Hgrad).
  { intros o Ho. cbn [_prev nd list_to_set foldr] in Ho.
    apply elem_of_union in Ho as [Ho|Ho];
      [apply elem_of_singleton in Ho as ->; done|].
    apply elem_of_union in Ho as [Ho|Ho];
      [apply elem_of_singleton in Ho as ->; done|].
    by apply not_elem_of_empty in Ho. }
  exists (h ++ [nd]), h2. split; [done|]. split; [done|].
  rewrite Hgrad. unfold nd.
  by rewrite (contributions_fresh_binary op h a b x y _ _ _ Ha Hb), delta_pair.
Qed.

(** X5. For two distinct nodes, neither reachable from the other, holding
    [x] and [y]: after [t = op(a, b)] and [t.backward()] the gradient of
    [a] has grown by the partial derivative of [op] in its first argument
    and that of [b] by the partial derivative in the second: 1 and 1 for
    add, 1 and -1 for subtract, [y] and [x] for multiply, [1/y] and
    [-x/y²] for divide. *)
Theorem binary_gradient (op : binop) (h : heap) (a b : ref) (x y ga gb : Qc) :
  wf h → data_at h a = Some x → data_at h b = Some y →
  grad_at h a = Some ga → grad_at h b = Some gb →
  a ≠ b → ¬ reachable h a b → ¬ reachable h b a → (op = Div → y ≠ 0) →
  ∃ h1 h2, method op a (PyScalar b) h = Ok (length h) h1
    ∧ backward (length h) h1 = Ok tt h2
    ∧ grad_at h2 a = Some (ga + (partials op x y).1)
    ∧ grad_at h2 b = Some (gb + (partials op x y).2).
Proof.
  intros Hwf Ha Hb Hga Hgb Hne Hab Hba Hy.
  destruct (binary_then_backward op h a b a x y Hwf Ha Hb Hy)
    as (h1 & h2 & Hrun & Hback & Hgrad_a); [by eapply at_lt|done|done|].
  destruct (binary_then_backward op h a b b x y Hwf Ha Hb Hy)
    as (h1' & h2' & Hrun' & Hback' & Hgrad_b); [by eapply at_lt|done|done|].
  assert (h1' = h1) as -> by congruence.
  assert (h2' = h2) as -> by congruence.
  exists h1, h2. split; [done|]. split; [done|].
  rewrite Hgrad_a, Hgrad_b, Hga, Hgb. simpl.
  repeat case_decide; try congruence.
  by rewrite Qcplus_0_r, Qcplus_0_l.
Qed.

Lemma binary_gradient_witness :
  wf [lifted (Qc_of_Z 6); lifted (Qc_of_Z 3)]
  ∧ ∃ h1 h2,
      method Div 0 (PyScalar 1) [lifted (Qc_of_Z 6); lifted (Qc_of_Z 3)]
      = Ok 2%nat h1
      ∧ backward 2 h1 = Ok tt h2
      ∧ grad_at h2 0 = Some (0 + (partials Div (Qc_of_Z 6) (Qc_of_Z 3)).1)
      ∧ grad_at h2 1 = Some (0 + (partials Div (Qc_of_Z 6) (Qc_of_Z 3)).2).
Proof.
  assert (Hwf : wf [lifted (Qc_of_Z 6); lifted (Qc_of_Z 3)]) by compute_done.
  split; [exact Hwf|].
  apply (binary_gradient Div [lifted (Qc_of_Z 6); lifted (Qc_of_Z 3)] 0 1
           (Qc_of_Z 6) (Qc_of_Z 3) 0 0 Hwf); try reflexivity.
  - lia.
  - intros Hr. apply (wf_reachable_le _ _ _ Hwf) in Hr. lia.
  - intros Hr. inversion Hr as [|c o Hc (nd & Hnd & Ho)]; subst.
    apply (wf_reachable_le _ _ _ Hwf) in Hc.
    destruct c as [|[|c]]; simpl in Hnd; [| |done];
      injection Hnd as <-; by apply not_elem_of_empty in Ho.
  - intros _. compute_done.
Defined.

(** X6. When both operands are one object, both contributions land on
    it: after [t = op(a, a)] and [t.backward()] the gradient of [a] has
    grown by 2 for add, 0 for subtract, [2x] for multiply and 0 for
    divide. *)
Theorem same_operand_gradient (op : binop) (h : heap) (a : ref) (x ga : Qc) :
  wf h → data_at h a = Some x → grad_at h a = Some ga → (op = Div → x ≠ 0) →
  ∃ h1 h2, method op a (PyScalar a) h = Ok (length h) h1
    ∧ backward (length h) h1 = Ok tt h2
    ∧ grad_at h2 a
      = Some (ga + match op with
                   | Add => 2
                   | Sub => 0
                   | Mul => 2 * x
                   | Div => 0
                   end).
Proof.
  intros Hwf Ha Hga Hx.
  destruct (binary_then_backward op h a a a x x Hwf Ha Ha Hx)
    as (h1 & h2 & Hrun & Hback & Hgrad); [by eapply at_lt|done|done|].
  exists h1, h2. split; [done|]. split; [done|].
  rewrite Hgrad, Hga. simpl. rewrite !decide_True by done.
  f_equal. f_equal. destruct op; simpl.
  - done.
  - ring.
  - ring.
  - specialize (Hx eq_refl). field. done.
Qed.

Lemma same_operand_gradient_witness :
  wf [lifted (Qc_of_Z 5)]
  ∧ ∃ h1 h2, method Mul 0 (PyScalar 0) [lifted (Qc_of_Z 5)] = Ok 1%nat h1
      ∧ backward 1 h1 = Ok tt h2
      ∧ grad_at h2 0 = Some (0 + 2 * Qc_of_Z 5).
Proof.
  assert (Hwf : wf [lifted (Qc_of_Z 5)]) by compute_done.
  split; [exact Hwf|].
  apply (same_operand_gradient Mul [lifted (Qc_of_Z 5)] 0 (Qc_of_Z 5) 0 Hwf);
    try reflexivity.
  intros H. discriminate H.
Defined.

(** X7. After [y = x.relu()] and [y.backward()] the gradient of [x] has
    grown by 1 when [x] holds a strictly positive value and is as it was
    otherwise, whatever else [x] was computed from. *)
Theorem relu_gradient (h : heap) (x : ref) (v g0 : Qc) :
  wf h → data_at h x = Some v → grad_at h x = Some g0 →
  ∃ h1 h2, relu x h = Ok (length h) h1
    ∧ backward (length h) h1 = Ok tt h2
    ∧ grad_at h2 x = Some (if decide (0 < v) then g0 + 1 else g0).
Proof.
  intros Hwf Hx Hg0. pose proof (at_lt _ _ _ _ Hx) as Hlx.
  pose proof (relu_Scalar h x v Hx) as Hrun.
  set (nd := mkScalar (if decide (v < 0) then 0 else v) 0
               (BwRelu x (length h)) (list_to_set [x]) "ReLU") in *.
  assert (Hwf1 : wf (h ++ [nd])).
  { apply (wf_relu h _ x Hwf Hlx). by rewrite Hrun. }
  destruct (fresh_node_backward h nd x Hwf Hwf1 Hlx) as (h2 & Hback & Hgrad).
  { intros o Ho. cbn [_prev nd list_to_set foldr] in Ho.
    apply elem_of_union in Ho as [Ho|Ho];
      [apply elem_of_singleton in Ho as ->; done|].
    by apply not_elem_of_empty in Ho. }
  exists (h ++ [nd]), h2. split; [done|]. split; [done|].
  rewrite Hgrad, Hg0. unfold contributions. rewrite lookup_snoc_length.
  cbn. rewrite decide_True by done. f_equal.
  rewrite Qcplus_0_r, Qcmult_1_r.
  destruct (decide (v < 0)) as [Hneg|Hnn].
  - rewrite (decide_False (P := 0 < 0)) by (intros H; by apply Qclt_not_eq in H).
    rewrite decide_False; [by rewrite Qcplus_0_r|].
    intros Hpos. apply Qclt_not_le in Hpos. apply Hpos. by apply Qclt_le_weak.
  - by destruct (decide (0 < v)); rewrite ?Qcplus_0_r.
Qed.

Lemma relu_gradient_witness :
  wf example_heap
  ∧ ∃ h1 h2, relu 2 example_heap = Ok 4%nat h1
      ∧ backward 4 h1 = Ok tt h2
      ∧ grad_at h2 2
        = Some (if decide (0 < Qc_of_Z 18) then 0 + 1 else 0).
Proof.
  assert (Hwf : wf example_heap) by compute_done.
  split; [exact Hwf|].
  apply (relu_gradient example_heap 2 (Qc_of_Z 18) 0 Hwf); compute_done.
Defined.

(** ** Further properties: the chain rule *)

Lemma delta_zero (cs : list (ref * Qc)) (j : ref) :
  (∀ r v, (r, v) ∈ cs → r ≠ j) → delta cs j = 0.
Proof.
  induction cs as [|[r v] cs IH]; intros Hcs; [done|].
  unfold delta. simpl. rewrite decide_False by (eapply Hcs; by left).
  rewrite Qcplus_0_l. apply IH. intros r' v' Hin. apply (Hcs r' v'). by right.
Qed.

Lemma delta_non_operand (h : heap) (x j : ref) :
  wf h → ¬ operand h j x → delta (contributions h x) j = 0.
Proof.
  intros Hwf Hno. apply delta_zero. intros r v Hin ->.
  apply Hno. by eapply contributions_operand.
Qed.



(** Running the rules of [l], consumers first: every node has received,
    on top of the gradient it had, what the rules of [l] contribute when
    each reads the final gradient of its own node. *)
Lemma for_each_adjoint (l : list ref) :
  ∀ h : heap, wf h → (∀ x, x ∈ l → (x < length h)%nat) →
    consumers_first h l →
    ∃ h', for_each l call_backward h = Ok tt h' ∧ grads_only h h'
      ∧ ∀ j, grad_at h' j = (λ g, g + received h' l j) <$> grad_at h j.
Proof.
  induction l as [|x l IH]; intros h Hwf Hl Hcf.
  - exists h. split; [done|]. split; [apply grads_only_refl|].
    intros j. unfold received. simpl.
    destruct (grad_at h j); simpl; [|done]. by rewrite Qcplus_0_r.
  - destruct (consumers_first_tail h x l Hcf) as [Hcf' Hnox].
    assert (Hx : (x < length h)%nat) by (apply Hl; by left).
    pose proof (call_backward_contributions h x Hwf Hx) as Hrun1.
    pose proof (grads_only_add_grads (contributions h x) h) as Hg1.
    set (h1 := add_grads (contributions h x) h) in *.
    assert (Hwf1 : wf h1) by (by eapply wf_grads_only).
    assert (Hl1 : ∀ y, y ∈ l → (y < length h1)%nat).
    { intros y Hy. rewrite (proj1 Hg1). apply Hl. by right. }
    destruct (IH h1 Hwf1 Hl1) as (h' & Hrun & Hg' & Hadj).
    { by eapply consumers_first_grads_only. }
    destruct (for_each_call_backward_ok l h1 Hwf1 Hl1)
      as (h'' & Hrun' & _ & Hframe).
    assert (h'' = h') as -> by congruence.
    assert (Hg : grads_only h h') by (by eapply grads_only_trans).
    exists h'. split; [simpl; by rewrite (bind_Ok _ _ _ _ _ Hrun1)|].
    split; [done|]. intros j.
    assert (Hsame : contributions h' x = contributions h x).
    { apply contributions_grads_only; [done|].
      unfold grad_at. rewrite Hframe.
      - unfold h1. rewrite lookup_add_grads_ne; [done|].
        intros r v Hin ->. apply (Hnox x); [by left|].
        by eapply contributions_operand.
      - intros y Hy Hop. apply (Hnox y); [by right|].
        by apply (grads_only_operand _ _ _ _ Hg1). }
    rewrite Hadj. unfold h1. rewrite grad_at_add_grads.
    unfold received. simpl. fold (received h' l j). rewrite Hsame.
    destruct (grad_at h j); simpl; [|done]. by rewrite Qcplus_assoc.
Qed.

(** X8. The chain rule. After [backward(t)] on a graph built by the
    class the gradient of [t] is 1, and the gradient of every other node
    is what it was before plus the sum, over the nodes reachable from [t],
    of what the rule of each contributes to it when the rule reads the
    final gradient of its own node; a rule contributes nothing to a node
    that is not an operand of its node. *)
Theorem backward_chain_rule (h : heap) (t : ref) :
  wf h → (t < length h)%nat →
  ∃ topo h',
    topo_of h t = Some topo ∧ backward t h = Ok tt h'
    ∧ (∀ x, x ∈ topo ↔ reachable h t x)
    ∧ grad_at h' t = Some 1
    ∧ (∀ j, j ≠ t →
         grad_at h' j = (λ g, g + received h' (reverse topo) j) <$> grad_at h j)
    ∧ (∀ x j, ¬ operand h j x → delta (contributions h' x) j = 0).
Proof.
  intros Hwf Ht.
  destruct (backward_ok h t Hwf Ht)
    as (topo & nd & h' & Htopo & Hnd & Hloop & Hback & Hg & Hgrad).
  destruct (topo_of_spec h t Hwf Ht) as (topo' & Htopo' & Hok & Hmem & _).
  assert (topo' = topo) as -> by congruence.
  pose proof (grads_only_write_grad h t 1 nd Hnd) as Hg0.
  destruct (for_each_adjoint (reverse topo) (<[t := with_grad 1 nd]> h))
    as (h'' & Hrun & _ & Hadj).
  { by eapply wf_grads_only. }
  { intros x Hx. rewrite elem_of_reverse in Hx. apply Hmem in Hx.
    rewrite length_insert. apply (wf_reachable_le _ _ _ Hwf) in Hx. lia. }
  { eapply consumers_first_grads_only; [exact Hg0|].
    by apply consumers_first_reverse. }
  assert (h'' = h') as -> by congruence.
  exists topo, h'. split; [done|]. split; [done|]. split; [done|].
  split; [unfold grad_at; by rewrite Hgrad|]. split.
  - intros j Hj. rewrite Hadj. unfold grad_at.
    by rewrite list_lookup_insert_ne.
  - intros x j Hno. apply delta_non_operand; [by eapply wf_grads_only|].
    by rewrite (grads_only_operand _ _ _ _ Hg).
Qed.

Lemma backward_chain_rule_witness :
  wf example_heap
  ∧ ∃ topo h', topo_of example_heap 3 = Some topo
      ∧ backward 3 example_heap = Ok tt h'
      ∧ grad_at h' 0
        = (λ g, g + received h' (reverse topo) 0) <$> grad_at example_heap 0.
Proof.
  assert (Hwf : wf example_heap) by compute_done.
  split; [exact Hwf|].
  destruct (backward_chain_rule example_heap 3 Hwf)
    as (topo & h' & Htopo & Hback & _ & _ & Hadj & _).
  - vm_compute. lia.
  - exists topo, h'. split; [exact Htopo|]. split; [exact Hback|].
    apply Hadj. lia.
Defined.

(** ** Reordering the rules

    With exact rationals the sum that a gradient collects does not depend
    on the order of its terms. The lemmas below use that to run the rules
    of an expression tree in the order of allocation; they are about the
    sums, not about the rounding of binary floating point. *)




(** ** Further properties: the iteration order of [_prev] *)

Lemma build_topo_elements_order (h : heap) (f : nat) :
  ∀ n st, build_topo_ord (elements_order h) h f n st = build_topo h f n st.
Proof.
  induction f as [|f IH]; intros n [V T]; [done|].
  simpl. destruct (decide (n ∈ V)); [done|].
  unfold elements_order at 2. destruct (h !! n) as [nd|]; [|done]. simpl.
  assert (∀ cs acc,
    foldl (λ acc child, acc ≫= build_topo_ord (elements_order h) h f child) acc cs
    = foldl (λ acc child, acc ≫= build_topo h f child) acc cs) as ->; [|done].
  induction cs as [|c cs IHcs]; intros acc; [done|]. simpl.
  rewrite IHcs. f_equal. destruct acc as [st|]; [|done]. simpl. apply IH.
Qed.

Section traversal_ord.
Context (h : heap) (Hwf : wf h).
Context (ord : ref → list ref) (Hord : iteration_order h ord).

Lemma fold_build_topo_ord (f : nat) (n : ref) :
  (∀ c V T, (c < n)%nat → (c < length h)%nat → topo_ok h T →
     agree (S c) V T →
     ∃ V' T', build_topo_ord ord h f c (V, T) = Some (V', T')
       ∧ topo_post h c V T V' T') →
  ∀ cs V T, (∀ c, c ∈ cs → (c < n)%nat ∧ (c < length h)%nat) →
    topo_ok h T → agree n V T →
    ∃ V' T' new,
      foldl (λ acc child, acc ≫= build_topo_ord ord h f child) (Some (V, T)) cs
      = Some (V', T')
      ∧ T' = T ++ new ∧ V' = V ∪ list_to_set new
      ∧ (∀ x, x ∈ new → ∃ c, c ∈ cs ∧ reachable h c x)
      ∧ topo_ok h T' ∧ (∀ c, c ∈ cs → c ∈ T').
Proof.
  intros IH cs. induction cs as [|c cs IHcs]; intros V T Hcs Hok Hag.
  - exists V, T, []. simpl. rewrite app_nil_r, (right_id_L ∅ (∪)).
    split_and!; try done; intros x Hx; by apply elem_of_nil in Hx.
  - destruct (Hcs c) as [Hcn Hcl]; [by left|].
    destruct (IH c V T Hcn Hcl Hok)
      as (V1 & T1 & Hrun & new1 & -> & -> & Hr1 & Hok1 & Hc1 & _).
    { eapply agree_mono; [|exact Hag]. lia. }
    destruct (IHcs (V ∪ list_to_set new1) (T ++ new1))
      as (V' & T' & new2 & Hfold & -> & -> & Hr2 & Hok2 & Hin2).
    { intros c' Hc'. apply Hcs. by right. }
    { done. }
    { by apply agree_grow. }
    exists (V ∪ list_to_set new1 ∪ list_to_set new2), ((T ++ new1) ++ new2),
      (new1 ++ new2).
    split; [simpl; by rewrite Hrun|].
    split; [by rewrite app_assoc|].
    split; [by rewrite list_to_set_app_L, (assoc_L (∪))|].
    split.
    { intros x [Hx|Hx]%elem_of_app.
      - exists c. split; [by left | by apply Hr1].
      - destruct (Hr2 x Hx) as (c' & Hc' & Hr). exists c'. split; [by right|done]. }
    split; [done|].
    intros c' [->|Hc']%elem_of_cons; [|by apply Hin2].
    apply elem_of_app. by left.
Qed.

Lemma build_topo_ord_spec (f : nat) :
  ∀ n V T, (n < f)%nat → (n < length h)%nat → topo_ok h T →
    agree (S n) V T →
    ∃ V' T', build_topo_ord ord h f n (V, T) = Some (V', T')
      ∧ topo_post h n V T V' T'.
Proof.
  induction f as [|f IHf]; intros n V T Hnf Hnl Hok Hag; [lia|].
  simpl. destruct (decide (n ∈ V)) as [HnV|HnV].
  { exists V, T. split; [done|]. exists []. simpl.
    rewrite app_nil_r, (right_id_L ∅ (∪)).
    split_and!; try done.
    - intros x Hx. by apply elem_of_nil in Hx.
    - apply (Hag n); [lia | done].
    - by left. }
  destruct (lookup_lt_is_Some_2 h n Hnl) as [nd Hnd]. rewrite Hnd. simpl.
  assert (Hchild : ∀ c, c ∈ ord n → (c < n)%nat ∧ (c < length h)%nat).
  { intros c Hc. apply (Hord n nd Hnd) in Hc.
    assert (c < n)%nat by (by apply (Hwf n nd Hnd)). lia. }
  destruct (fold_build_topo_ord f n) with
    (cs := ord n) (V := {[n]} ∪ V) (T := T)
    as (V2 & T2 & new2 & Hfold & -> & -> & Hr2 & Hok2 & Hin2); try done.
  { intros c V0 T0 Hc. apply IHf. lia. }
  { intros m Hm. rewrite elem_of_union, elem_of_singleton.
    rewrite <- (Hag m) by lia. split; [|by right]. intros [->|]; [lia|done]. }
  rewrite Hfold. simpl. eexists _, _. split; [done|].
  assert (Hnew_lt : ∀ x, x ∈ new2 → (x < n)%nat).
  { intros x Hx. destruct (Hr2 x Hx) as (c & Hc & Hreach).
    apply Hchild in Hc. apply (wf_reachable_le _ _ _ Hwf) in Hreach. lia. }
  assert (HnT : n ∉ T ++ new2).
  { intros [Hn|Hn]%elem_of_app.
    - apply HnV. apply (Hag n); [lia|done].
    - apply Hnew_lt in Hn. lia. }
  exists (new2 ++ [n]). split; [by rewrite app_assoc|].
  split.
  { rewrite list_to_set_app_L. simpl. rewrite (right_id_L ∅ (∪)).
    rewrite (comm_L (∪) {[n]} V), <- !(assoc_L (∪)).
    f_equal. apply (comm_L (∪)). }
  split.
  { intros x [Hx|Hx%list_elem_of_singleton]%elem_of_app; [|subst; constructor].
    destruct (Hr2 x Hx) as (c & Hc & Hreach).
    eapply reachable_trans; [|exact Hreach].
    eapply reach_step; [constructor|]. exists nd. split; [done|].
    by apply (Hord n nd Hnd). }
  split.
  { destruct Hok2 as [Hnd2 Hord2]. split.
    - apply NoDup_app. split; [done|]. split; [|apply NoDup_singleton].
      intros x Hx ->%list_elem_of_singleton. done.
    - intros i c o Hi Hop. apply lookup_snoc_Some in Hi as [[Hlt Hi]|[-> <-]].
      + destruct (Hord2 i c o Hi Hop) as (j & Hj & Hjo).
        exists j. split; [done|]. by apply lookup_app_l_Some.
      + destruct Hop as (nd' & Hnd' & Ho). simplify_eq.
        assert (o ∈ T ++ new2) as [j Hj]%list_elem_of_lookup.
        { apply Hin2. by apply (Hord n _ Hnd). }
        exists j. split; [by eapply lookup_lt_Some|].
        by apply lookup_app_l_Some. }
  split; [apply elem_of_app; right; by left|].
  right. apply last_snoc.
Qed.

Lemma topo_of_ord_spec (t : ref) :
  (t < length h)%nat →
  ∃ topo, topo_of_ord ord h t = Some topo ∧ topo_ok h topo
    ∧ (∀ x, x ∈ topo ↔ reachable h t x) ∧ last topo = Some t.
Proof.
  intros Ht.
  destruct (build_topo_ord_spec (S (length h)) t ∅ [])
    as (V' & T' & Hrun & new & -> & _ & Hreach & Hok & Hin & Hlast);
    [lia | done | | |].
  { split; [constructor|]. intros i c o Hi. by rewrite lookup_nil in Hi. }
  { intros m _. split; [set_solver | by intros ?%elem_of_nil]. }
  exists ([] ++ new). unfold topo_of_ord. rewrite Hrun. split; [done|].
  split; [done|]. split.
  - intros x. split; [apply Hreach | by apply topo_ok_reachable].
  - by destruct Hlast as [?%not_elem_of_empty|].
Qed.
End traversal_ord.

Lemma topo_of_elements_order (h : heap) (t : ref) :
  topo_of_ord (elements_order h) h t = topo_of h t.
Proof. unfold topo_of_ord, topo_of. by rewrite build_topo_elements_order. Qed.

(** The order the model fixes is one of the iteration orders. *)
Lemma elements_iteration_order (h : heap) :
  iteration_order h (elements_order h).
Proof.
  intros n nd Hnd x. unfold elements_order. rewrite Hnd.
  apply elem_of_elements.
Qed.

(** X10. The order in which [for child in node._prev] yields the
    operands does not change what the traversal collects. On a graph
    built by the class and with any iteration order of the sets,
    [build_topo] leaves a sequence without duplicates that holds exactly
    the nodes reachable from [t], ends with [t] and has every operand
    strictly before each of its consumers, so that the loop of [backward]
    meets consumers first; it is a permutation of the sequence found with
    the order the model fixes, which is one of the iteration orders. *)
Theorem build_topo_iteration_order (h : heap) (t : ref) (ord : ref → list ref) :
  wf h → (t < length h)%nat → iteration_order h ord →
  ∃ topo topo0,
    topo_of_ord ord h t = Some topo
    ∧ topo_of h t = Some topo0
    ∧ topo_of_ord (elements_order h) h t = topo_of h t
    ∧ iteration_order h (elements_order h)
    ∧ topo ≡ₚ topo0
    ∧ NoDup topo
    ∧ (∀ x, x ∈ topo ↔ reachable h t x)
    ∧ last topo = Some t
    ∧ (∀ i c o, topo !! i = Some c → operand h o c →
         ∃ j, (j < i)%nat ∧ topo !! j = Some o)
    ∧ consumers_first h (reverse topo).
Proof.
  intros Hwf Ht Hord.
  destruct (topo_of_ord_spec h Hwf ord Hord t Ht)
    as (topo & Htopo & Hok & Hmem & Hlast).
  destruct (topo_of_spec h t Hwf Ht) as (topo0 & Htopo0 & Hok0 & Hmem0 & _).
  exists topo, topo0. split; [done|]. split; [done|].
  split; [apply topo_of_elements_order|].
  split; [apply elements_iteration_order|].
  split.
  { apply NoDup_Permutation; [apply Hok | apply Hok0|].
    intros x. by rewrite Hmem, Hmem0. }
  split; [apply Hok|]. split; [done|]. split; [done|].
  split; [apply Hok|]. by apply consumers_first_reverse.
Qed.

Lemma build_topo_iteration_order_witness :
  wf product_heap
  ∧ iteration_order product_heap
      (λ n, if decide (n = 2%nat) then [0; 1]%nat else [])
  ∧ topo_of product_heap 2 = Some [1; 0; 2]%nat
  ∧ topo_of_ord (λ n, if decide (n = 2%nat) then [0; 1]%nat else [])
      product_heap 2 = Some [0; 1; 2]%nat
  ∧ ∃ topo topo0,
      topo_of_ord (λ n, if decide (n = 2%nat) then [0; 1]%nat else [])
        product_heap 2 = Some topo
      ∧ topo_of product_heap 2 = Some topo0
      ∧ topo ≡ₚ topo0 ∧ last topo = Some 2%nat.
Proof.
  assert (Hwf : wf product_heap) by compute_done.
  assert (Hord : iteration_order product_heap
                   (λ n, if decide (n = 2%nat) then [0; 1]%nat else [])).
  { intros n nd Hnd x. apply lookup_lt_Some in Hnd as Hlt.
    rewrite <- elem_of_elements.
    destruct n as [|[|[|n]]]; [| | |vm_compute in Hlt; lia];
      vm_compute in Hnd; injection Hnd as <-;
      match goal with
      | |- context [elements ?X] =>
          let v := eval vm_compute in (elements X) in
          change (elements X) with v
      end; simpl; set_unfold; lia. }
  split; [exact Hwf|]. split; [exact Hord|].
  split; [vm_compute; reflexivity|]. split; [vm_compute; reflexivity|].
  assert (Hlt : (2 < length product_heap)%nat) by (vm_compute; lia).
  destruct (build_topo_iteration_order product_heap 2 _ Hwf Hlt Hord)
    as (topo & topo0 & Htopo & Htopo0 & _ & _ & Hperm & _ & _ & Hlast & _).
  exists topo, topo0. split; [exact Htopo|]. split; [exact Htopo0|].
  split; [exact Hperm | exact Hlast].
Defined.

(** ** Further properties: the reflected add and multiply, relu twice *)

(** X11. For a node [x] holding [v] and a raw float [r], [r + x] and
    [r * x] lift [r] to a leaf and return a node holding [r + v] and
    [r * v]; the rule of the sum adds [g] to [x] and to the leaf, the rule
    of the product adds [g * r] to [x] and [g * v] to the leaf. *)
Theorem reflected_add_mul (h : heap) (x : ref) (v r : Qc) :
  data_at h x = Some v →
  (∃ h', __radd__ x (PyFloat r) h = Ok (S (length h)) h'
     ∧ h' !! length h = Some (lifted r)
     ∧ data_at h' (S (length h)) = Some (r + v)
     ∧ ∀ h2 g, evolves h' h2 → grad_at h2 (S (length h)) = Some g →
         call_backward (S (length h)) h2
         = Ok tt (add_grad (length h) g (add_grad x g h2)))
  ∧ (∃ h', __rmul__ x (PyFloat r) h = Ok (S (length h)) h'
       ∧ h' !! length h = Some (lifted r)
       ∧ data_at h' (S (length h)) = Some (r * v)
       ∧ ∀ h2 g, evolves h' h2 → grad_at h2 (S (length h)) = Some g →
           call_backward (S (length h)) h2
           = Ok tt (add_grad (length h) (g * v) (add_grad x (g * r) h2))).
Proof.
  intros Hx. pose proof (at_lt _ _ _ _ Hx) as Hlx.
  assert (Hr : data_at (h ++ [lifted r]) (length h) = Some r).
  { unfold data_at. by rewrite lookup_snoc_length. }
  pose proof (data_at_snoc_old h (lifted r) x v Hx) as Hx'.
  split.
  - destruct (method_contract Add _ _ _ _ _ Hx' Hr)
      as (h' & Hrun & _ & Hold & Hdata & _ & Hrule); [done|].
    rewrite length_snoc in *. exists h'.
    split; [exact Hrun|].
    split; [rewrite Hold by lia; apply lookup_snoc_length|].
    split; [by rewrite Qcplus_comm | exact Hrule].
  - destruct (method_contract Mul _ _ _ _ _ Hx' Hr)
      as (h' & Hrun & _ & Hold & Hdata & _ & Hrule); [done|].
    rewrite length_snoc in *. exists h'.
    split; [exact Hrun|].
    split; [rewrite Hold by lia; apply lookup_snoc_length|].
    split; [by rewrite Qcmult_comm | exact Hrule].
Qed.

Lemma reflected_add_mul_witness :
  data_at [lifted (Qc_of_Z 4)] 0 = Some (Qc_of_Z 4)
  ∧ ∃ h', __rmul__ 0 (PyFloat (Qc_of_Z 3)) [lifted (Qc_of_Z 4)] = Ok 2%nat h'
      ∧ data_at h' 2 = Some (Qc_of_Z 3 * Qc_of_Z 4).
Proof.
  split; [reflexivity|].
  destruct (reflected_add_mul [lifted (Qc_of_Z 4)] 0 (Qc_of_Z 4) (Qc_of_Z 3))
    as [_ (h' & Hrun & _ & Hdata & _)].
  - reflexivity.
  - exists h'. split; [exact Hrun | exact Hdata].
Defined.

Lemma Qc_max_nonneg (v : Qc) : 0 ≤ Qc_max 0 v.
Proof. unfold Qc_max. destruct (decide (0 ≤ v)); [done | apply Qcle_refl]. Qed.

(** X12. The value of a [relu] node is never negative, and [relu] of it
    is a node with the same value. *)
Theorem relu_twice (h : heap) (x : ref) (v : Qc) :
  data_at h x = Some v →
  ∃ h1 h2 w, relu x h = Ok (length h) h1
    ∧ relu (length h) h1 = Ok (S (length h)) h2
    ∧ data_at h2 (length h) = Some w ∧ 0 ≤ w
    ∧ data_at h2 (S (length h)) = Some w.
Proof.
  intros Hx. pose proof (relu_Scalar h x v Hx) as Hrun1.
  set (nd := mkScalar (if decide (v < 0) then 0 else v) 0
               (BwRelu x (length h)) (list_to_set [x]) "ReLU") in *.
  assert (Hd1 : data_at (h ++ [nd]) (length h) = Some (Qc_max 0 v)).
  { unfold data_at. rewrite lookup_snoc_length. simpl. by rewrite relu_value. }
  pose proof (relu_Scalar (h ++ [nd]) (length h) _ Hd1) as Hrun2.
  rewrite length_snoc in Hrun2.
  eexists _, _, (Qc_max 0 v). split; [exact Hrun1|]. split; [exact Hrun2|].
  split; [by apply data_at_snoc_old|]. split; [apply Qc_max_nonneg|].
  unfold data_at. rewrite list_lookup_middle by (by rewrite length_snoc).
  simpl. rewrite relu_value. f_equal. unfold Qc_max.
  destruct (decide (0 ≤ v)); [by rewrite decide_True|].
  by rewrite decide_True by apply Qcle_refl.
Qed.

Lemma relu_twice_witness :
  data_at [lifted (Qc_of_Z (-5))] 0 = Some (Qc_of_Z (-5))
  ∧ ∃ h1 h2 w, relu 0 [lifted (Qc_of_Z (-5))] = Ok 1%nat h1
      ∧ relu 1 h1 = Ok 2%nat h2
      ∧ data_at h2 1 = Some w ∧ 0 ≤ w ∧ data_at h2 2 = Some w.
Proof.
  split; [reflexivity|].
  apply (relu_twice [lifted (Qc_of_Z (-5))] 0 (Qc_of_Z (-5))). reflexivity.
Defined.

(** ** Further properties: expressions *)

Section trees.
Context (h0 : heap).

Lemma bt_prefix e v ha a hb :
  built_tree h0 e v ha a hb → ∃ l, hb = ha ++ l.
Proof.
  induction 1 as [r v ha _|q ha|op e1 e2 x y ha a1 hm a2 hk _ IH1 _ IH2 _
                  |e1 x ha a1 hm _ IH1].
  - exists []. by rewrite app_nil_r.
  - by eexists.
  - destruct IH1 as [l1 ->], IH2 as [l2 ->].
    eexists. by rewrite <- !app_assoc.
  - destruct IH1 as [l1 ->]. eexists. by rewrite <- !app_assoc.
Qed.

Lemma bt_evolves e v ha a hb : built_tree h0 e v ha a hb → evolves ha hb.
Proof. intros [l ->]%bt_prefix. apply evolves_app. Qed.




Lemma bt_data e v ha a hb :
  built_tree h0 e v ha a hb → evolves h0 ha → data_at hb a = Some v.
Proof.
  induction 1 as [r v ha Hd|q ha|op e1 e2 x y ha a1 hm a2 hk _ _ _ _ _
                  |e1 x ha a1 hm _ _]; intros He.
  - by eapply evolves_data.
  - unfold data_at. by rewrite lookup_snoc_length.
  - unfold data_at. by rewrite lookup_snoc_length.
  - unfold data_at. rewrite lookup_snoc_length. simpl. by rewrite relu_value.
Qed.





Lemma grad_at_app_old (h l : heap) (x : ref) :
  (x < length h)%nat → grad_at (h ++ l) x = grad_at h x.
Proof. intros Hx. unfold grad_at. by rewrite lookup_app_l. Qed.





(** The forward pass: [build] returns, and what it returns is the tree. *)
Lemma build_tree (e : expr) :
  ∀ ha v, evolves h0 ha → value_of h0 e = Some v →
    ∃ a hb, build e ha = Ok a hb ∧ built_tree h0 e v ha a hb.
Proof.
  induction e as [r|q|op e1 IH1 e2 IH2|e1 IH1]; intros ha v He Hval;
    simpl in *.
  - exists r, ha. split; [done|]. by constructor.
  - injection Hval as <-. exists (length ha), (ha ++ [lifted q]).
    split; [done|]. constructor.
  - destruct (value_of h0 e1) as [x|] eqn:E1; [|done].
    destruct (value_of h0 e2) as [y|] eqn:E2; [|done]. simpl in Hval.
    destruct (decide (op = Div ∧ y = 0)) as [|Hnz]; [done|].
    injection Hval as <-.
    assert (Hy : op = Div → y ≠ 0) by (intros ? ?; by apply Hnz).
    destruct (IH1 ha x He eq_refl) as (a1 & hm & Hrun1 & Ht1).
    assert (Hem : evolves h0 hm).
    { eapply evolves_trans; [exact He | by eapply bt_evolves]. }
    destruct (IH2 hm y Hem eq_refl) as (a2 & hk & Hrun2 & Ht2).
    pose proof (bt_data _ _ _ _ _ Ht1 He) as Hd1.
    pose proof (bt_data _ _ _ _ _ Ht2 Hem) as Hd2.
    pose proof (evolves_data _ _ _ _ (bt_evolves _ _ _ _ _ Ht2) Hd1) as Hd1'.
    eexists _, _. split.
    + rewrite (bind_Ok _ _ _ _ _ Hrun1), (bind_Ok _ _ _ _ _ Hrun2).
      apply (method_spec op hk a1 a2 x y Hd1' Hd2 Hy).
    + by apply (bt_bin h0 op e1 e2 x y ha a1 hm a2 hk).
  - destruct (value_of h0 e1) as [x|] eqn:E1; [|done]. injection Hval as <-.
    destruct (IH1 ha x He eq_refl) as (a1 & hm & Hrun1 & Ht1).
    pose proof (bt_data _ _ _ _ _ Ht1 He) as Hd1.
    eexists _, _. split.
    + rewrite (bind_Ok _ _ _ _ _ Hrun1). apply (relu_Scalar hm a1 x Hd1).
    + by apply bt_relu.
Qed.

Lemma bind_Raise {A B} (m : M A) (k : A → M B) h e h' :
  m h = Raise e h' → bind m k h = Raise e h'.
Proof. unfold bind. by intros ->. Qed.

(** A division by zero met while the expression is evaluated, left
    operand first, aborts the construction. *)
Lemma build_raises (e : expr) :
  ∀ ha, evolves h0 ha → vars_valid h0 e → value_of h0 e = None →
    ∃ l, build e ha = Raise ZeroDivisionError (ha ++ l).
Proof.
  induction e as [r|q|op e1 IH1 e2 IH2|e1 IH1]; intros ha He Hvars Hval;
    simpl in *.
  - destruct (lt_data_at h0 r Hvars) as [x Hx]. congruence.
  - done.
  - destruct Hvars as [Hv1 Hv2].
    destruct (value_of h0 e1) as [x|] eqn:E1; cycle 1.
    { destruct (IH1 ha He Hv1 eq_refl) as [l Hrun]. exists l.
      by apply bind_Raise. }
    destruct (build_tree e1 ha x He E1) as (a1 & hm & Hrun1 & Ht1).
    rewrite (bind_Ok _ _ _ _ _ Hrun1).
    destruct (bt_prefix _ _ _ _ _ Ht1) as [l1 ->].
    assert (Hem : evolves h0 (ha ++ l1)).
    { eapply evolves_trans; [exact He | apply evolves_app]. }
    destruct (value_of h0 e2) as [y|] eqn:E2; cycle 1.
    { destruct (IH2 _ Hem Hv2 eq_refl) as [l Hrun]. exists (l1 ++ l).
      rewrite app_assoc. by apply bind_Raise. }
    destruct (build_tree e2 _ y Hem E2) as (a2 & hk & Hrun2 & Ht2).
    rewrite (bind_Ok _ _ _ _ _ Hrun2).
    destruct (bt_prefix _ _ _ _ _ Ht2) as [l2 ->].
    simpl in Hval. destruct (decide (op = Div ∧ y = 0)) as [[-> ->]|]; [|done].
    exists (l1 ++ l2). rewrite app_assoc. simpl.
    pose proof (bt_data _ _ _ _ _ Ht1 He) as Hd1.
    pose proof (bt_data _ _ _ _ _ Ht2 Hem) as Hd2.
    pose proof (evolves_data _ _ _ _ (bt_evolves _ _ _ _ _ Ht2) Hd1) as Hd1'.
    by eapply truediv_Scalar_zero.
  - destruct (value_of h0 e1) as [x|] eqn:E1; [done|].
    destruct (IH1 ha He Hvars eq_refl) as [l Hrun]. exists l.
    by apply bind_Raise.
Qed.
End trees.

(** X13. The forward pass. For an expression over existing objects,
    evaluated as Python does, [build] returns a node that holds the number
    the expression denotes, with every earlier object left as it was;
    and it raises [ZeroDivisionError] when a divisor in the expression
    is 0. *)
Theorem build_forward (h : heap) (e : expr) :
  vars_valid h e →
  match value_of h e with
  | Some v =>
      ∃ a l, build e h = Ok a (h ++ l) ∧ data_at (h ++ l) a = Some v
  | None => ∃ l, build e h = Raise ZeroDivisionError (h ++ l)
  end.
Proof.
  intros Hvars. destruct (value_of h e) as [v|] eqn:E.
  - destruct (build_tree h e h v (evolves_refl h) E) as (a & hb & Hrun & Ht).
    destruct (bt_prefix _ _ _ _ _ _ Ht) as [l ->].
    exists a, l. split; [done|]. by apply (bt_data h _ _ _ _ _ Ht), evolves_refl.
  - by apply (build_raises h e h (evolves_refl h)).
Qed.

Lemma build_forward_witness :
  vars_valid product_heap (EBin Add (EBin Mul (EVar 0) (EVar 1)) (EConst (Qc_of_Z 10)))
  ∧ value_of product_heap
      (EBin Add (EBin Mul (EVar 0) (EVar 1)) (EConst (Qc_of_Z 10)))
    = Some (Qc_of_Z 2 * Qc_of_Z 3 + Qc_of_Z 10)
  ∧ ∃ a l, build (EBin Add (EBin Mul (EVar 0) (EVar 1)) (EConst (Qc_of_Z 10)))
             product_heap = Ok a (product_heap ++ l)
      ∧ data_at (product_heap ++ l) a
        = Some (Qc_of_Z 2 * Qc_of_Z 3 + Qc_of_Z 10).
Proof.
  assert (Hvars : vars_valid product_heap
            (EBin Add (EBin Mul (EVar 0) (EVar 1)) (EConst (Qc_of_Z 10)))).
  { vm_compute. lia. }
  split; [exact Hvars|]. split; [reflexivity|].
  exact (build_forward product_heap _ Hvars).
Defined.

(** ** Further properties: the pass over an expression *)









Section tree_pass.
Context (h0 : heap).

End tree_pass.








(** ** Further properties: a reflected operation, then a pass *)

Lemma reflected_float (op : binop) (x : ref) (r : Qc) (h : heap) :
  reflected op x (PyFloat r) h
  = match op with
    | Add | Mul => method op x (PyScalar (length h)) (h ++ [lifted r])
    | Sub | Div => method op (length h) (PyScalar x) (h ++ [lifted r])
    end.
Proof. by destruct op. Qed.

Lemma reachable_leaf (h : heap) (a x : ref) (nd : Scalar) :
  h !! a = Some nd → _prev nd = ∅ → reachable h a x → a = x.
Proof.
  intros Hnd Hprev. induction 1 as [|c o _ IH (nd' & Hnd' & Ho)]; [done|].
  subst c. rewrite Hnd in Hnd'. injection Hnd' as <-. rewrite Hprev in Ho.
  by apply not_elem_of_empty in Ho.
Qed.

(** X15. For a node [x] holding [v] and a raw float [r]: after
    [t = r op x] and [t.backward()] the gradient of [x] has grown by the
    derivative of [r op x] in [x], which is 1 for [r + x], -1 for [r - x],
    [r] for [r * x] and [-r/v²] for [r / x] with [v] nonzero. *)
Theorem reflected_gradient (op : binop) (h : heap) (x : ref) (v g0 r : Qc) :
  wf h → data_at h x = Some v → grad_at h x = Some g0 → (op = Div → v ≠ 0) →
  ∃ h1 h2, reflected op x (PyFloat r) h = Ok (S (length h)) h1
    ∧ backward (S (length h)) h1 = Ok tt h2
    ∧ grad_at h2 x
      = Some (g0 + match op with
                   | Add => 1
                   | Sub => - 1
                   | Mul => r
                   | Div => - r / (v * v)
                   end).
Proof.
  intros Hwf Hx Hg0 Hv. pose proof (at_lt _ _ _ _ Hx) as Hlx.
  pose proof (wf_leaf h r Hwf) as Hwf'.
  assert (Hr : data_at (h ++ [lifted r]) (length h) = Some r).
  { unfold data_at. by rewrite lookup_snoc_length. }
  pose proof (data_at_snoc_old h (lifted r) x v Hx) as Hx'.
  assert (Hleaf : reachable (h ++ [lifted r]) (length h) x → length h = x).
  { apply (reachable_leaf _ _ _ (lifted r)); [apply lookup_snoc_length | done]. }
  assert (Hgx : grad_at (h ++ [lifted r]) x = Some g0).
  { by rewrite grad_at_app_old. }
  rewrite reflected_float.
  assert (Hcase :
    (op = Add ∨ op = Mul) ∧
      (∃ h1 h2, method op x (PyScalar (length h)) (h ++ [lifted r])
                = Ok (S (length h)) h1
         ∧ backward (S (length h)) h1 = Ok tt h2
         ∧ grad_at h2 x = Some (g0 + ((partials op v r).1 + 0)))
    ∨ (op = Sub ∨ op = Div) ∧
      (∃ h1 h2, method op (length h) (PyScalar x) (h ++ [lifted r])
                = Ok (S (length h)) h1
         ∧ backward (S (length h)) h1 = Ok tt h2
         ∧ grad_at h2 x = Some (g0 + (0 + (partials op r v).2)))).
  { destruct (decide (op = Add ∨ op = Mul)) as [Hop|Hop]; [left|right].
    - split; [done|].
      destruct (binary_then_backward op (h ++ [lifted r]) x (length h) x v r
                  Hwf' Hx' Hr) as (h1 & h2 & Hrun & Hback & Hgrad).
      { intros ->. by destruct Hop. }
      { rewrite length_snoc. lia. }
      { done. }
      { done. }
      rewrite length_snoc in *. exists h1, h2. split; [done|]. split; [done|].
      rewrite Hgrad, Hgx. simpl. rewrite decide_True by done.
      by rewrite decide_False by lia.
    - split; [destruct op; auto; destruct Hop; auto|].
      destruct (binary_then_backward op (h ++ [lifted r]) (length h) x x r v
                  Hwf' Hr Hx' Hv) as (h1 & h2 & Hrun & Hback & Hgrad).
      { rewrite length_snoc. lia. }
      { done. }
      { done. }
      rewrite length_snoc in *. exists h1, h2. split; [done|]. split; [done|].
      rewrite Hgrad, Hgx. simpl. rewrite decide_False by lia.
      by rewrite decide_True by done. }
  destruct Hcase as [[Hop (h1 & h2 & Hrun & Hback & Hgrad)]
                    |[Hop (h1 & h2 & Hrun & Hback & Hgrad)]];
    exists h1, h2; (split; [by destruct Hop as [-> | ->]|]);
    (split; [done|]); rewrite Hgrad; f_equal; f_equal;
    destruct Hop as [-> | ->]; simpl; ring.
Qed.

Lemma reflected_gradient_witness :
  wf [lifted (Qc_of_Z 4)]
  ∧ ∃ h1 h2,
      reflected Sub 0 (PyFloat 1) [lifted (Qc_of_Z 4)] = Ok 2%nat h1
      ∧ backward 2 h1 = Ok tt h2
      ∧ grad_at h2 0 = Some (0 + - 1).
Proof.
  assert (Hwf : wf [lifted (Qc_of_Z 4)]) by compute_done.
  split; [exact Hwf|].
  apply (reflected_gradient Sub [lifted (Qc_of_Z 4)] 0 (Qc_of_Z 4) 0 1 Hwf);
    try reflexivity.
  intros H. discriminate H.
Defined.
